(** * corvid-agent/throttle: throttle, debounce and sliding-window rate limiter

    A shallow embedding of [src/index.ts].

    - Numbers that hold milliseconds or counts are modelled as [Z].
    - [Date.now()] is an effect: every call consumes the next reading of a
      clock oracle [Clock := nat -> Z], so two reads made by one handler may
      differ.
    - Calls that leave the module (the wrapped [fn], a waiter's [resolve] or
      [reject]) are recorded, in order, in the [trace] of the world.
    - [setTimeout] stores the requested delay in the handle; the host fires a
      timer by running the modelled callback, and only while the handle is
      still set.
    - The wrapped [fn] is taken to return normally and not to call back into
      its own wrapper.
    - Of the [async] function made by [RateLimiter.wrap], the model keeps
      what its promise settles with; the microtask in which the code after
      [await] runs is not modelled. *)

From Stdlib Require Import String.
From Stdlib Require Import ZArith List Bool Lia.
From Stdlib Require Import Sorted.
From Stdlib Require DecimalString.
Import ListNotations.
Open Scope Z_scope.

(** ** The host: clock, promise allocation, trace of outgoing calls *)

Definition Clock : Type := nat -> Z.

Definition monotone (c : Clock) : Prop :=
  forall i j : nat, (i <= j)%nat -> c i <= c j.

Module Host.

Section WithTypes.
Variables St Ev : Type.

Record World : Type := mkWorld {
  reads : nat;        (* number of Date.now() calls made so far *)
  promises : nat;     (* number of Promise objects created so far *)
  trace : list Ev;    (* calls that left the module, oldest first *)
  obj : St            (* the closure variables or object fields *)
}.

Definition M (A : Type) : Type := Clock -> World -> A * World.

Definition ret {A : Type} (a : A) : M A := fun _ w => (a, w).

Definition bind {A B : Type} (m : M A) (k : A -> M B) : M B :=
  fun c w => let r := m c w in k (fst r) c (snd r).

Definition Date_now : M Z :=
  fun c w => (c (reads w),
              mkWorld (S (reads w)) (promises w) (trace w) (obj w)).

Definition get : M St := fun _ w => (obj w, w).

Definition put (s : St) : M unit :=
  fun _ w => (tt, mkWorld (reads w) (promises w) (trace w) s).

Definition modify (f : St -> St) : M unit :=
  fun _ w => (tt, mkWorld (reads w) (promises w) (trace w) (f (obj w))).

Definition emit (e : Ev) : M unit :=
  fun _ w => (tt, mkWorld (reads w) (promises w) (trace w ++ [e]) (obj w)).

Definition new_Promise : M nat :=
  fun _ w => (promises w,
              mkWorld (reads w) (S (promises w)) (trace w) (obj w)).

Fixpoint forEach {A : Type} (l : list A) (f : A -> M unit) : M unit :=
  match l with
  | [] => ret tt
  | x :: l' => bind (f x) (fun _ => forEach l' f)
  end.
End WithTypes.

Arguments mkWorld {St Ev}.
Arguments reads {St Ev}.
Arguments promises {St Ev}.
Arguments trace {St Ev}.
Arguments obj {St Ev}.
Arguments ret {St Ev A}.
Arguments bind {St Ev A B}.
Arguments Date_now {St Ev}.
Arguments get {St Ev}.
Arguments put {St Ev}.
Arguments modify {St Ev}.
Arguments emit {St Ev}.
Arguments new_Promise {St Ev}.
Arguments forEach {St Ev A}.

End Host.

Import Host.

Declare Scope host_scope.
Delimit Scope host_scope with host.
Notation "x <- m ;; k" := (bind m (fun x => k))
  (at level 61, m at next level, right associativity) : host_scope.
Notation "m ;; k" := (bind m (fun _ => k))
  (at level 61, right associativity) : host_scope.

(** Unfolds the primitives of the host monad. *)
Ltac unfold_host :=
  unfold bind, ret, get, put, modify, emit, Date_now, new_Promise; cbn.

(** A JavaScript number that may have become NaN ([undefined + n]). *)
Inductive Num : Type :=
| Ms (z : Z)
| NaN.

(** [Math.max(d, n)]: NaN is contagious. *)
Definition Math_max (d : Num) (n : Z) : Num :=
  match d with
  | Ms z => Ms (Z.max z n)
  | NaN => NaN
  end.

Definition string_of_Z (z : Z) : string :=
  DecimalString.NilZero.string_of_int (Z.to_int z).

(** ** Rate limiter *)

Module RateLimiter.

Inductive Strategy : Type := SDrop | SQueue | SError.

Record RateLimiterOptions : Type := {
  opt_limit : Z;
  opt_window : Z;
  opt_strategy : option Strategy
}.

(** [class RateLimitError extends Error] *)
Record RateLimitError : Type := new_RateLimitError_fields {
  message : string;
  name : string;
  err_limit : Z;
  err_window : Z
}.

Definition new_RateLimitError (limit window : Z) : RateLimitError :=
  {| message := ("Rate limit exceeded: " ++ string_of_Z limit
                 ++ " calls per " ++ string_of_Z window ++ "ms")%string;
     name := "RateLimitError";
     err_limit := limit;
     err_window := window |}.

(** A queued waiter [{resolve, reject}] is identified with the promise whose
    callbacks it holds. *)
Definition Waiter : Type := nat.

(** Calls of a waiter's callbacks. *)
Inductive Callback : Type :=
| Resolve (w : Waiter)                       (* item.resolve() -> resolve(true) *)
| Reject (w : Waiter) (e : RateLimitError).  (* item.reject(err) *)

Record State : Type := mkState {
  timestamps : list Z;
  queue : list Waiter;
  drainTimer : option Num;   (* the delay the outstanding timer was set with *)
  limit : Z;
  window : Z;
  strategy : Strategy
}.

Definition set_timestamps (ts : list Z) (s : State) : State :=
  mkState ts (queue s) (drainTimer s) (limit s) (window s) (strategy s).
Definition set_queue (q : list Waiter) (s : State) : State :=
  mkState (timestamps s) q (drainTimer s) (limit s) (window s) (strategy s).
Definition set_drainTimer (t : option Num) (s : State) : State :=
  mkState (timestamps s) (queue s) t (limit s) (window s) (strategy s).

(** What [acquire()] hands back: a settled or a still pending promise. *)
Inductive Promise : Type :=
| Fulfilled (b : bool)
| Rejected (e : RateLimitError)
| Pending (w : Waiter).

Definition W : Type := World State Callback.
Definition RL (A : Type) : Type := M State Callback A.

Open Scope host_scope.

(** [constructor(options)] *)
Definition constructor (options : RateLimiterOptions) : State :=
  {| timestamps := [];
     queue := [];
     drainTimer := None;
     limit := opt_limit options;
     window := opt_window options;
     strategy := match opt_strategy options with
                 | Some s => s
                 | None => SDrop
                 end |}.

Definition fresh (options : RateLimiterOptions) : W :=
  mkWorld 0%nat 0%nat [] (constructor options).

Definition cleanup : RL unit :=
  now <- Date_now ;;
  this <- get ;;
  let cutoff := now - window this in
  put (set_timestamps (filter (fun t => cutoff <? t) (timestamps this)) this).

Definition remaining : RL Z :=
  cleanup ;;
  this <- get ;;
  ret (Z.max 0 (limit this - Z.of_nat (length (timestamps this)))).

Definition retryAfter : RL Num :=
  cleanup ;;
  this <- get ;;
  if Z.of_nat (length (timestamps this)) <? limit this then ret (Ms 0)
  else
    now <- Date_now ;;
    match timestamps this with
    | oldest :: _ => ret (Ms (Z.max 0 (oldest + window this - now)))
    | [] => ret NaN   (* timestamps[0] is undefined *)
    end.

Definition tryAcquire : RL bool :=
  cleanup ;;
  this <- get ;;
  if Z.of_nat (length (timestamps this)) <? limit this then
    now <- Date_now ;;
    modify (fun s => set_timestamps (timestamps s ++ [now]) s) ;;
    ret true
  else ret false.

Definition scheduleDrain : RL unit :=
  this <- get ;;
  match drainTimer this with
  | Some _ => ret tt
  | None =>
      delay <- retryAfter ;;
      modify (set_drainTimer (Some (Math_max delay 10)))
  end.

Definition acquire : RL Promise :=
  ok <- tryAcquire ;;
  if ok then ret (Fulfilled true)
  else
    this <- get ;;
    match strategy this with
    | SError => ret (Rejected (new_RateLimitError (limit this) (window this)))
    | SDrop => ret (Fulfilled false)
    | SQueue =>
        p <- new_Promise ;;
        modify (fun s => set_queue (queue s ++ [p]) s) ;;
        scheduleDrain ;;
        ret (Pending p)
    end.

Definition reset : RL unit :=
  modify (set_timestamps []) ;;
  this <- get ;;
  forEach (queue this) (fun item => emit (Resolve item)) ;;
  modify (set_queue []) ;;
  this <- get ;;
  match drainTimer this with
  | Some _ => modify (set_drainTimer None)
  | None => ret tt
  end.

(** [queue.shift()] *)
Definition shift : RL (option Waiter) :=
  this <- get ;;
  match queue this with
  | [] => ret None
  | item :: rest => put (set_queue rest this) ;; ret (Some item)
  end.

(** The [while] loop of [drainQueue]; every turn that goes round again has
    removed one waiter, so [length queue] turns are enough
    (see [drainLoop_fuel]). *)
Fixpoint drainLoop (fuel : nat) : RL unit :=
  match fuel with
  | O => ret tt
  | S fuel' =>
      this <- get ;;
      match queue this with
      | [] => ret tt
      | _ :: _ =>
          ok <- tryAcquire ;;
          if ok then
            item <- shift ;;
            match item with
            | Some i => emit (Resolve i)
            | None => ret tt
            end ;;
            drainLoop fuel'
          else ret tt
      end
  end.

Definition drainQueue : RL unit :=
  this <- get ;;
  drainLoop (length (queue this)) ;;
  this <- get ;;
  match queue this with
  | [] => ret tt
  | _ :: _ => scheduleDrain
  end.

(** The callback handed to [setTimeout] by [scheduleDrain]. *)
Definition drainTimer_fire : RL unit :=
  modify (set_drainTimer None) ;;
  drainQueue.

(** Everything that can happen to a limiter. *)
Inductive Op : Type :=
| OpTryAcquire | OpAcquire | OpRemaining | OpRetryAfter | OpReset
| OpTimer.   (* the host fires the drain timer *)

Definition step (o : Op) : RL unit :=
  match o with
  | OpTryAcquire => tryAcquire ;; ret tt
  | OpAcquire => acquire ;; ret tt
  | OpRemaining => remaining ;; ret tt
  | OpRetryAfter => retryAfter ;; ret tt
  | OpReset => reset
  | OpTimer =>
      this <- get ;;
      match drainTimer this with
      | Some _ => drainTimer_fire
      | None => ret tt   (* no timer outstanding: nothing fires *)
      end
  end.

Definition run (ops : list Op) : RL unit := forEach ops step.

(** [n] consecutive [tryAcquire()] calls and their results. *)
Fixpoint tryAcquire_n (n : nat) : RL (list bool) :=
  match n with
  | O => ret []
  | S n' => b <- tryAcquire ;; bs <- tryAcquire_n n' ;; ret (b :: bs)
  end.


(** The calls of [reject]. *)
Definition rejected (tr : list Callback) : list Callback :=
  filter (fun cb => match cb with Resolve _ => false | Reject _ _ => true end) tr.

(** The timestamps that [cleanup] keeps at clock reading [now]. *)
Definition live (now : Z) (s : State) : list Z :=
  filter (fun t => now - window s <? t) (timestamps s).

(** [same_queue w w']: only the clock position, the timestamps and the drain
    timer may differ. *)
Definition same_queue (w w' : W) : Prop :=
  promises w' = promises w /\ trace w' = trace w /\
  queue (obj w') = queue (obj w) /\
  limit (obj w') = limit (obj w) /\ window (obj w') = window (obj w) /\
  strategy (obj w') = strategy (obj w).

(** [drained k w w']: the first [k] waiters of the queue of [w] were granted,
    in queue order, and nothing else happened to the queue. *)
Definition drained (k : nat) (w w' : W) : Prop :=
  promises w' = promises w /\
  trace w' = trace w ++ map Resolve (firstn k (queue (obj w))) /\
  queue (obj w') = skipn k (queue (obj w)) /\
  limit (obj w') = limit (obj w) /\ window (obj w') = window (obj w) /\
  strategy (obj w') = strategy (obj w).

(** [enqueued w w']: one new waiter was put at the back of the queue and no
    callback was called. *)
Definition enqueued (w w' : W) : Prop :=
  promises w' = S (promises w) /\ trace w' = trace w /\
  queue (obj w') = queue (obj w) ++ [promises w] /\
  limit (obj w') = limit (obj w) /\ window (obj w') = window (obj w) /\
  strategy (obj w') = strategy (obj w).


(** The timestamps left by [k] granted calls that started at clock position
    0: the second reading of each call. *)
Definition stamps (c : Clock) (k : nat) : list Z :=
  map (fun i => c (2 * i + 1)%nat) (seq 0 k).

(** A world reached after [k] granted calls. *)
Definition filled (c : Clock) (lim win : Z) (k : nat) (w : W) : Prop :=
  reads w = (2 * k)%nat /\ timestamps (obj w) = stamps c k /\
  limit (obj w) = lim /\ window (obj w) = win.

(** What the promise of a function made by [wrap] settles with: the result
    of [fn], a thrown error, or the waiter it is suspended on (it goes on as
    [after_acquire true] when that waiter is resolved). *)
Inductive Wrapped (R : Type) : Type :=
| Returns (r : R)
| Throws (e : RateLimitError)
| Awaits (w : Waiter).

Arguments Returns {R}.
Arguments Throws {R}.
Arguments Awaits {R}.

(** The code of the wrapped function after [await this.acquire()]. *)
Definition after_acquire {A R : Type} (fn : A -> R) (args : A)
    (acquired : bool) (this : State) : Wrapped R :=
  if negb acquired then Throws (new_RateLimitError (limit this) (window this))
  else Returns (fn args).

(** [wrap(fn)(...args)] *)
Definition wrap {A R : Type} (fn : A -> R) (args : A) : RL (Wrapped R) :=
  p <- acquire ;;
  this <- get ;;
  match p with
  | Fulfilled acquired => ret (after_acquire fn args acquired this)
  | Rejected e => ret (Throws e)
  | Pending w => ret (Awaits w)
  end.

(** No more timestamps than the limit allows. *)
Definition within_capacity (w : W) : Prop :=
  Z.of_nat (length (timestamps (obj w))) <= Z.max 0 (limit (obj w)).

(** The timestamps are clock readings already taken, oldest first. *)
Definition stamped (c : Clock) (w : W) : Prop :=
  StronglySorted Z.le (timestamps (obj w)) /\
  forall t : Z, In t (timestamps (obj w)) ->
    exists i : nat, (i < reads w)%nat /\ t = c i.

(** A drain timer is outstanding exactly while waiters are queued. *)
Definition armed (w : W) : Prop :=
  drainTimer (obj w) = None <-> queue (obj w) = [].

Close Scope host_scope.

End RateLimiter.

(** ** Throttle *)

Module Throttle.

Record ThrottleOptions : Type := {
  opt_leading : option bool;
  opt_trailing : option bool
}.

Section WithFn.
Variables A R : Type.
Variable fn : A -> R.
Variable wait : Z.
Variable options : ThrottleOptions.

(** [const { leading = true, trailing = true } = options] *)
Definition leading : bool :=
  match opt_leading options with Some b => b | None => true end.
Definition trailing : bool :=
  match opt_trailing options with Some b => b | None => true end.

Record State : Type := mkState {
  lastCallTime : option Z;
  lastExecTime : Z;
  timer : option Z;        (* the delay handed to setTimeout *)
  lastArgs : option A;
  isPending : bool
}.

Definition set_lastCallTime (v : option Z) (s : State) : State :=
  mkState v (lastExecTime s) (timer s) (lastArgs s) (isPending s).
Definition set_lastExecTime (v : Z) (s : State) : State :=
  mkState (lastCallTime s) v (timer s) (lastArgs s) (isPending s).
Definition set_timer (v : option Z) (s : State) : State :=
  mkState (lastCallTime s) (lastExecTime s) v (lastArgs s) (isPending s).
Definition set_lastArgs (v : option A) (s : State) : State :=
  mkState (lastCallTime s) (lastExecTime s) (timer s) v (isPending s).
Definition set_isPending (v : bool) (s : State) : State :=
  mkState (lastCallTime s) (lastExecTime s) (timer s) (lastArgs s) v.

(** The trace lists the argument of every call of [fn]. *)
Definition W : Type := World State A.
Definition T (X : Type) : Type := M State A X.

Definition init : State :=
  {| lastCallTime := None; lastExecTime := 0; timer := None;
     lastArgs := None; isPending := false |}.

Definition fresh : W := mkWorld 0%nat 0%nat [] init.

Open Scope host_scope.

Definition execute (args : A) : T (option R) :=
  now <- Date_now ;;
  modify (set_lastExecTime now) ;;
  modify (set_isPending false) ;;
  emit args ;;
  ret (Some (fn args)).

(** [if (timer) { clearTimeout(timer); timer = undefined; }] *)
Definition clear_timer : T unit :=
  this <- get ;;
  match timer this with
  | Some _ => modify (set_timer None)
  | None => ret tt
  end.

(** The callback handed to [setTimeout] by [throttled]. *)
Definition timer_fire : T unit :=
  modify (set_timer None) ;;
  this <- get ;;
  if trailing then
    match lastArgs this with
    | Some a => execute a ;; modify (set_lastArgs None)
    | None => ret tt
    end
  else ret tt.

Definition throttled (args : A) : T (option R) :=
  now <- Date_now ;;
  this <- get ;;
  let elapsed := now - lastExecTime this in
  modify (set_lastArgs (Some args)) ;;
  modify (set_lastCallTime (Some now)) ;;
  (* [Some r]: the handler returned [r] from inside the first [if] *)
  returned <-
    (if wait <=? elapsed then
       clear_timer ;;
       if leading then r <- execute args ;; ret (Some r) else ret None
     else ret None) ;;
  match returned with
  | Some r => ret r
  | None =>
      this <- get ;;
      (if trailing then
         match timer this with
         | None =>
             modify (set_isPending true) ;;
             let remaining := wait - elapsed in
             modify (set_timer (Some remaining))
         | Some _ => ret tt
         end
       else ret tt) ;;
      ret None
  end.

Definition cancel : T unit :=
  clear_timer ;;
  modify (set_lastArgs None) ;;
  modify (set_isPending false).

Definition flush : T unit :=
  this <- get ;;
  match timer this, lastArgs this with
  | Some _, Some a =>
      modify (set_timer None) ;;
      execute a ;;
      modify (set_lastArgs None)
  | _, _ => ret tt
  end.

Definition pending : T bool := this <- get ;; ret (isPending this).

(** What can happen to a throttled function; the timer fires only while its
    handle is set. *)
Inductive Op : Type :=
| OpCall (args : A) | OpCancel | OpFlush | OpTimer.

Definition step (o : Op) : T unit :=
  match o with
  | OpCall args => throttled args ;; ret tt
  | OpCancel => cancel
  | OpFlush => flush
  | OpTimer =>
      this <- get ;;
      match timer this with Some _ => timer_fire | None => ret tt end
  end.

Definition run (ops : list Op) : T unit := forEach ops step.

(** The JavaScript truth value of a handle or an argument array that may be
    [undefined]. *)
Definition truthy {X : Type} (o : option X) : bool :=
  match o with Some _ => true | None => false end.

(** What holds of the closure variables in every reachable state. *)
Definition inv (s : State) : bool :=
  eqb (isPending s) (truthy (timer s)) &&
  implb (truthy (timer s)) (truthy (lastArgs s) && trailing).

Close Scope host_scope.
End WithFn.

Arguments mkState {A}.
Arguments lastCallTime {A}.
Arguments lastExecTime {A}.
Arguments timer {A}.
Arguments lastArgs {A}.
Arguments isPending {A}.
Arguments init {A}.
Arguments fresh {A}.
Arguments execute {A R}.
Arguments clear_timer {A}.
Arguments timer_fire {A R}.
Arguments throttled {A R}.
Arguments cancel {A}.
Arguments flush {A R}.
Arguments pending {A}.
Arguments OpCall {A}.
Arguments OpCancel {A}.
Arguments OpFlush {A}.
Arguments OpTimer {A}.
Arguments step {A R}.
Arguments run {A R}.
Arguments inv {A}.

(** [throttleLeading] and [throttleTrailing] fix the options. *)
Definition throttleLeading_options : ThrottleOptions :=
  {| opt_leading := Some true; opt_trailing := Some false |}.
Definition throttleTrailing_options : ThrottleOptions :=
  {| opt_leading := Some false; opt_trailing := Some true |}.

End Throttle.

(** ** Debounce *)

Module Debounce.

Record DebounceOptions : Type := {
  opt_leading : option bool;
  opt_maxWait : option Z
}.

(** [debounced] discards what [fn] returns, so only the calls of [fn] are
    modelled: each appends its argument to the trace. *)
Section WithFn.
Variable A : Type.
Variable wait : Z.
Variable options : DebounceOptions.

(** [const { leading = false, maxWait } = options] *)
Definition leading : bool :=
  match opt_leading options with Some b => b | None => false end.
Definition maxWait : option Z := opt_maxWait options.

Record State : Type := mkState {
  timer : option Z;
  maxTimer : option Z;
  lastArgs : option A;
  isPending : bool;
  leadingCalled : bool
}.

Definition set_timer (v : option Z) (s : State) : State :=
  mkState v (maxTimer s) (lastArgs s) (isPending s) (leadingCalled s).
Definition set_maxTimer (v : option Z) (s : State) : State :=
  mkState (timer s) v (lastArgs s) (isPending s) (leadingCalled s).
Definition set_lastArgs (v : option A) (s : State) : State :=
  mkState (timer s) (maxTimer s) v (isPending s) (leadingCalled s).
Definition set_isPending (v : bool) (s : State) : State :=
  mkState (timer s) (maxTimer s) (lastArgs s) v (leadingCalled s).
Definition set_leadingCalled (v : bool) (s : State) : State :=
  mkState (timer s) (maxTimer s) (lastArgs s) (isPending s) v.

(** The trace lists the argument of every call of [fn]. *)
Definition W : Type := World State A.
Definition D (X : Type) : Type := M State A X.

Definition init : State :=
  {| timer := None; maxTimer := None; lastArgs := None;
     isPending := false; leadingCalled := false |}.

Definition fresh : W := mkWorld 0%nat 0%nat [] init.

Open Scope host_scope.

Definition execute : D unit :=
  this <- get ;;
  match lastArgs this with
  | Some a => emit a ;; modify (set_lastArgs None)
  | None => ret tt
  end ;;
  modify (set_isPending false) ;;
  modify (set_leadingCalled false) ;;
  this <- get ;;
  match maxTimer this with
  | Some _ => modify (set_maxTimer None)
  | None => ret tt
  end.

(** The callback of the quiet-period timer. *)
Definition timer_fire : D unit :=
  modify (set_timer None) ;;
  this <- get ;;
  if negb leading || (match lastArgs this with Some _ => true | None => false end)
  then execute
  else
    modify (set_isPending false) ;;
    modify (set_leadingCalled false).

(** The callback of the [maxWait] timer. *)
Definition maxTimer_fire : D unit :=
  modify (set_maxTimer None) ;;
  modify (set_timer None) ;;
  execute.

Definition debounced (args : A) : D unit :=
  modify (set_lastArgs (Some args)) ;;
  modify (set_isPending true) ;;
  this <- get ;;
  (if leading && negb (leadingCalled this) then
     modify (set_leadingCalled true) ;;
     emit args
   else ret tt) ;;
  (* the old quiet-period timer is cleared, a new one takes its place *)
  modify (set_timer (Some wait)) ;;
  this <- get ;;
  match maxWait, maxTimer this with
  | Some m, None => modify (set_maxTimer (Some m))
  | _, _ => ret tt
  end.

Definition cancel : D unit :=
  modify (set_timer None) ;;
  modify (set_maxTimer None) ;;
  modify (set_lastArgs None) ;;
  modify (set_isPending false) ;;
  modify (set_leadingCalled false).

Definition flush : D unit :=
  modify (set_timer None) ;;
  execute.

Definition pending : D bool := this <- get ;; ret (isPending this).

(** What can happen to a debounced function; a timer fires only while its
    handle is set. *)
Inductive Op : Type :=
| OpCall (args : A) | OpCancel | OpFlush | OpTimer | OpMaxTimer.

Definition step (o : Op) : D unit :=
  match o with
  | OpCall args => debounced args
  | OpCancel => cancel
  | OpFlush => flush
  | OpTimer =>
      this <- get ;;
      match timer this with Some _ => timer_fire | None => ret tt end
  | OpMaxTimer =>
      this <- get ;;
      match maxTimer this with Some _ => maxTimer_fire | None => ret tt end
  end.

Definition run (ops : list Op) : D unit := forEach ops step.

(** [is_set o]: the JavaScript truth value of a handle or of an argument
    array that may be [undefined]. *)
Definition is_set {X : Type} (o : option X) : bool :=
  match o with Some _ => true | None => false end.

(** What holds of the closure variables in every reachable state. *)
Definition inv (s : State) : bool :=
  eqb (isPending s) (is_set (timer s)) &&
  implb (leadingCalled s) (isPending s) &&
  implb (is_set (timer s)) (is_set (lastArgs s)) &&
  implb (leadingCalled s) leading.

(** A burst is under way and its leading call has been made. *)
Definition in_burst (s : State) : Prop :=
  isPending s = true /\ leadingCalled s = true /\ timer s <> None.

(** The ceiling timer is only set during a burst, and only when [maxWait]
    is configured. *)
Definition ceiling_inv (s : State) : bool :=
  implb (is_set (maxTimer s)) (is_set (timer s) && is_set maxWait).

Close Scope host_scope.
End WithFn.

Arguments mkState {A}.
Arguments timer {A}.
Arguments maxTimer {A}.
Arguments lastArgs {A}.
Arguments isPending {A}.
Arguments leadingCalled {A}.
Arguments init {A}.
Arguments fresh {A}.
Arguments execute {A}.
Arguments timer_fire {A}.
Arguments maxTimer_fire {A}.
Arguments debounced {A}.
Arguments cancel {A}.
Arguments flush {A}.
Arguments pending {A}.
Arguments OpCall {A}.
Arguments OpCancel {A}.
Arguments OpFlush {A}.
Arguments OpTimer {A}.
Arguments OpMaxTimer {A}.
Arguments step {A}.
Arguments run {A}.
Arguments inv {A}.
Arguments in_burst {A}.
Arguments ceiling_inv {A}.

End Debounce.

(** * Facts about the rate limiter *)

Module RateLimiterFacts.
Import RateLimiter.

(** *** The methods written out as functions of the world *)

Lemma cleanup_eq (c : Clock) (w : W) :
  cleanup c w =
  (tt, mkWorld (S (reads w)) (promises w) (trace w)
         (set_timestamps (live (c (reads w)) (obj w)) (obj w))).
Proof. reflexivity. Qed.

Lemma tryAcquire_eq (c : Clock) (w : W) :
  tryAcquire c w =
  let ts := live (c (reads w)) (obj w) in
  if Z.of_nat (length ts) <? limit (obj w)
  then (true, mkWorld (S (S (reads w))) (promises w) (trace w)
                (set_timestamps (ts ++ [c (S (reads w))]) (obj w)))
  else (false, mkWorld (S (reads w)) (promises w) (trace w)
                 (set_timestamps ts (obj w))).
Proof.
  unfold tryAcquire, cleanup, live. unfold_host.
  destruct (_ <? _); reflexivity.
Qed.

Lemma remaining_eq (c : Clock) (w : W) :
  remaining c w =
  let ts := live (c (reads w)) (obj w) in
  (Z.max 0 (limit (obj w) - Z.of_nat (length ts)),
   mkWorld (S (reads w)) (promises w) (trace w) (set_timestamps ts (obj w))).
Proof. reflexivity. Qed.

(** *** What a method leaves alone *)

Lemma same_queue_refl (w : W) : same_queue w w.
Proof. repeat split. Qed.

Lemma same_queue_trans (w1 w2 w3 : W) :
  same_queue w1 w2 -> same_queue w2 w3 -> same_queue w1 w3.
Proof.
  unfold same_queue. intros H1 H2.
  decompose [and] H1. decompose [and] H2. repeat split; congruence.
Qed.

Lemma cleanup_same (c : Clock) (w : W) : same_queue w (snd (cleanup c w)).
Proof. repeat split. Qed.

Lemma tryAcquire_same (c : Clock) (w : W) :
  same_queue w (snd (tryAcquire c w)) /\
  drainTimer (obj (snd (tryAcquire c w))) = drainTimer (obj w).
Proof.
  rewrite tryAcquire_eq. cbv zeta.
  destruct (_ <? _); repeat split.
Qed.

Lemma remaining_same (c : Clock) (w : W) : same_queue w (snd (remaining c w)).
Proof. repeat split. Qed.

Lemma retryAfter_same (c : Clock) (w : W) :
  same_queue w (snd (retryAfter c w)) /\
  drainTimer (obj (snd (retryAfter c w))) = drainTimer (obj w).
Proof.
  unfold retryAfter, cleanup. unfold_host.
  destruct (_ <? _); cbn; [repeat split|].
  destruct (filter _ _); repeat split.
Qed.

Lemma scheduleDrain_same (c : Clock) (w : W) :
  same_queue w (snd (scheduleDrain c w)).
Proof.
  unfold scheduleDrain. unfold_host.
  destruct (drainTimer (obj w)) eqn:E; cbn.
  - apply same_queue_refl.
  - destruct (retryAfter_same c w) as [H _].
    unfold same_queue in *. cbn. exact H.
Qed.

(** *** The drain loop *)

Lemma drainLoop_eq (n : nat) (c : Clock) (w : W) :
  drainLoop (S n) c w =
  match queue (obj w) with
  | [] => (tt, w)
  | _ :: _ =>
      let r := tryAcquire c w in
      let w1 := snd r in
      if fst r then
        match queue (obj w1) with
        | [] => drainLoop n c w1
        | i :: rest =>
            drainLoop n c
              (mkWorld (reads w1) (promises w1) (trace w1 ++ [Resolve i])
                 (set_queue rest (obj w1)))
        end
      else (tt, w1)
  end.
Proof.
  cbn [drainLoop]. unfold bind at 1. unfold get at 1. cbn [fst snd].
  destruct (queue (obj w)) as [|i rest] eqn:Eq; [reflexivity|].
  unfold bind at 1. cbv zeta. change (snd (get c w)) with w.
  destruct (fst (tryAcquire c w)); [|reflexivity].
  unfold shift. unfold_host.
  destruct (queue (obj (snd (tryAcquire c w)))); cbn; destruct w; reflexivity.
Qed.

Lemma same_queue_drained (w w' : W) : same_queue w w' -> drained 0 w w'.
Proof.
  unfold same_queue, drained. intros H. decompose [and] H. cbn.
  rewrite app_nil_r. repeat split; assumption.
Qed.

Lemma drained_after_same (k : nat) (w1 w2 w3 : W) :
  drained k w1 w2 -> same_queue w2 w3 -> drained k w1 w3.
Proof.
  unfold same_queue, drained. intros H1 H2.
  decompose [and] H1. decompose [and] H2. repeat split; congruence.
Qed.

Lemma drainLoop_drained (fuel : nat) (c : Clock) (w : W) :
  exists k : nat, drained k w (snd (drainLoop fuel c w)).
Proof.
  revert w. induction fuel as [|n IH]; intros w.
  - exists 0%nat. apply same_queue_drained, same_queue_refl.
  - rewrite drainLoop_eq.
    destruct (queue (obj w)) as [|i rest] eqn:Eq.
    + exists 0%nat. apply same_queue_drained, same_queue_refl.
    + cbv zeta. destruct (tryAcquire_same c w) as [Hs _].
      destruct (fst (tryAcquire c w)).
      * unfold same_queue in Hs. decompose [and] Hs.
        replace (queue (obj (snd (tryAcquire c w)))) with (i :: rest) by congruence.
        match goal with |- exists k, drained k w (snd (drainLoop n c ?w2)) =>
          destruct (IH w2) as [k Hk] end.
        exists (S k). unfold drained in *. cbn in Hk. decompose [and] Hk.
        rewrite Eq. cbn [firstn skipn map].
        repeat split; try congruence.
        match goal with H : trace _ = _ |- _ => rewrite H end.
        rewrite <- app_assoc. cbn. congruence.
      * exists 0%nat. apply same_queue_drained. exact Hs.
Qed.

(** The fuel handed over by [drainQueue] is enough: when the loop stops, the
    queue is empty or the last [tryAcquire()] was refused. *)
Lemma drainLoop_fuel (fuel : nat) (c : Clock) (w : W) :
  (length (queue (obj w)) <= fuel)%nat ->
  drainLoop (S fuel) c w = drainLoop fuel c w.
Proof.
  revert w. induction fuel as [|n IH]; intros w Hlen.
  - rewrite drainLoop_eq. destruct (queue (obj w)); [reflexivity|].
    cbn in Hlen. lia.
  - rewrite (drainLoop_eq (S n)), (drainLoop_eq n).
    destruct (queue (obj w)) as [|i rest] eqn:Eq; [reflexivity|].
    cbv zeta. destruct (tryAcquire_same c w) as [Hs _].
    destruct (fst (tryAcquire c w)); [|reflexivity].
    unfold same_queue in Hs. decompose [and] Hs.
    replace (queue (obj (snd (tryAcquire c w)))) with (i :: rest) by congruence.
    apply IH. cbn in *. lia.
Qed.

Lemma drainQueue_eq (c : Clock) (w : W) :
  drainQueue c w =
  let w1 := snd (drainLoop (length (queue (obj w))) c w) in
  match queue (obj w1) with
  | [] => (tt, w1)
  | _ :: _ => scheduleDrain c w1
  end.
Proof.
  unfold drainQueue. unfold_host.
  destruct (queue (obj (snd (drainLoop _ c w)))); reflexivity.
Qed.

Lemma drainQueue_drained (c : Clock) (w : W) :
  exists k : nat, drained k w (snd (drainQueue c w)).
Proof.
  rewrite drainQueue_eq. cbv zeta.
  destruct (drainLoop_drained (length (queue (obj w))) c w) as [k Hk].
  exists k.
  destruct (queue (obj (snd (drainLoop _ c w)))); [exact Hk|].
  eapply drained_after_same; [exact Hk|apply scheduleDrain_same].
Qed.

Lemma drainTimer_fire_drained (c : Clock) (w : W) :
  exists k : nat, drained k w (snd (drainTimer_fire c w)).
Proof.
  unfold drainTimer_fire. unfold bind at 1. cbv zeta.
  match goal with |- exists k, drained k w (snd (drainQueue c ?w1)) =>
    destruct (drainQueue_drained c w1) as [k Hk] end.
  exists k. unfold drained in *. cbn in Hk. exact Hk.
Qed.

(** *** [acquire] and [reset] *)

Lemma acquire_eq (c : Clock) (w : W) :
  acquire c w =
  let r := tryAcquire c w in
  let w1 := snd r in
  if fst r then (Fulfilled true, w1)
  else
    match strategy (obj w1) with
    | SError =>
        (Rejected (new_RateLimitError (limit (obj w1)) (window (obj w1))), w1)
    | SDrop => (Fulfilled false, w1)
    | SQueue =>
        (Pending (promises w1),
         snd (scheduleDrain c
                (mkWorld (reads w1) (S (promises w1)) (trace w1)
                   (set_queue (queue (obj w1) ++ [promises w1]) (obj w1)))))
    end.
Proof.
  unfold acquire. unfold bind at 1. cbv zeta.
  destruct (fst (tryAcquire c w)); [reflexivity|].
  unfold_host. destruct (strategy _); reflexivity.
Qed.

Lemma forEach_resolve (l : list Waiter) (c : Clock) (w : W) :
  forEach l (fun item => emit (Resolve item)) c w =
  (tt, mkWorld (reads w) (promises w) (trace w ++ map Resolve l) (obj w)).
Proof.
  revert w. induction l as [|i l IH]; intros w; cbn [forEach map].
  - unfold ret. rewrite app_nil_r. destruct w; reflexivity.
  - unfold bind. cbv zeta. rewrite IH. unfold emit. cbn.
    rewrite <- app_assoc. reflexivity.
Qed.

Lemma reset_eq (c : Clock) (w : W) :
  reset c w =
  (tt, mkWorld (reads w) (promises w)
         (trace w ++ map Resolve (queue (obj w)))
         (mkState [] [] None
            (limit (obj w)) (window (obj w)) (strategy (obj w)))).
Proof.
  unfold reset. unfold bind at 1. cbv zeta.
  unfold bind at 1. cbv zeta. unfold bind at 1. cbv zeta.
  rewrite forEach_resolve. unfold_host.
  destruct (drainTimer (obj w)) eqn:E; [reflexivity|].
  unfold set_queue, set_timestamps. cbn. rewrite E. reflexivity.
Qed.

Lemma acquire_effect (c : Clock) (w : W) :
  same_queue w (snd (acquire c w)) \/ enqueued w (snd (acquire c w)).
Proof.
  rewrite acquire_eq. cbv zeta.
  destruct (tryAcquire_same c w) as [Hs _].
  destruct (fst (tryAcquire c w)); [left; exact Hs|].
  destruct (strategy (obj (snd (tryAcquire c w)))); try (left; exact Hs).
  right. cbn [snd].
  match goal with |- enqueued w (snd (scheduleDrain c ?w2)) =>
    pose proof (scheduleDrain_same c w2) as H2 end.
  unfold same_queue, enqueued in *. cbn in H2.
  decompose [and] Hs. decompose [and] H2. repeat split; congruence.
Qed.

Lemma reset_drained (c : Clock) (w : W) :
  drained (length (queue (obj w))) w (snd (reset c w)).
Proof.
  rewrite reset_eq. unfold drained. cbn.
  rewrite firstn_all, skipn_all. repeat split.
Qed.

Lemma step_effect (o : Op) (c : Clock) (w : W) :
  (exists k : nat, drained k w (snd (step o c w))) \/
  enqueued w (snd (step o c w)).
Proof.
  destruct o; cbn [step].
  - left. exists 0%nat. apply same_queue_drained, (tryAcquire_same c w).
  - destruct (acquire_effect c w) as [H|H].
    + left. exists 0%nat. apply same_queue_drained, H.
    + right. exact H.
  - left. exists 0%nat. apply same_queue_drained, (remaining_same c w).
  - left. exists 0%nat. apply same_queue_drained, (retryAfter_same c w).
  - left. exists (length (queue (obj w))). apply reset_drained.
  - left. unfold bind at 1. unfold get at 1. cbn [fst snd].
    destruct (drainTimer (obj w)).
    + apply drainTimer_fire_drained.
    + exists 0%nat. apply same_queue_drained, same_queue_refl.
Qed.

Lemma run_cons (o : Op) (ops : list Op) (c : Clock) (w : W) :
  run (o :: ops) c w = run ops c (snd (step o c w)).
Proof. reflexivity. Qed.

(** *** Invariants of every run *)



Lemma rejected_app (t1 t2 : list Callback) :
  rejected (t1 ++ t2) = rejected t1 ++ rejected t2.
Proof. unfold rejected. apply filter_app. Qed.

Lemma rejected_resolve (l : list Waiter) : rejected (map Resolve l) = [].
Proof. unfold rejected. induction l as [|i l IH]; cbn; [reflexivity|exact IH]. Qed.


Lemma step_config (o : Op) (c : Clock) (w : W) :
  limit (obj (snd (step o c w))) = limit (obj w) /\
  window (obj (snd (step o c w))) = window (obj w) /\
  strategy (obj (snd (step o c w))) = strategy (obj w).
Proof.
  destruct (step_effect o c w) as [[k H]|H];
    [unfold drained in H|unfold enqueued in H];
    decompose [and] H; repeat split; assumption.
Qed.

Lemma step_rejected (o : Op) (c : Clock) (w : W) :
  rejected (trace (snd (step o c w))) = rejected (trace w).
Proof.
  destruct (step_effect o c w) as [[k H]|H];
    [unfold drained in H|unfold enqueued in H]; decompose [and] H.
  - match goal with H1 : trace _ = _ |- _ => rewrite H1 end.
    rewrite rejected_app, rejected_resolve. apply app_nil_r.
  - congruence.
Qed.


Lemma run_config (ops : list Op) (c : Clock) (w : W) :
  limit (obj (snd (run ops c w))) = limit (obj w) /\
  window (obj (snd (run ops c w))) = window (obj w) /\
  strategy (obj (snd (run ops c w))) = strategy (obj w).
Proof.
  revert w. induction ops as [|o ops IH]; intros w; [repeat split|].
  rewrite run_cons.
  destruct (IH (snd (step o c w))) as (H1 & H2 & H3).
  destruct (step_config o c w) as (G1 & G2 & G3).
  repeat split; congruence.
Qed.

Lemma run_rejected (ops : list Op) (c : Clock) (w : W) :
  rejected (trace (snd (run ops c w))) = rejected (trace w).
Proof.
  revert w. induction ops as [|o ops IH]; intros w; [reflexivity|].
  rewrite run_cons, IH. apply step_rejected.
Qed.

(** *** Filling one window *)

Lemma stamps_S (c : Clock) (k : nat) :
  stamps c (S k) = stamps c k ++ [c (2 * k + 1)%nat].
Proof. unfold stamps. rewrite seq_S, map_app. reflexivity. Qed.

Lemma stamps_length (c : Clock) (k : nat) : length (stamps c k) = k.
Proof. unfold stamps. rewrite length_map. apply length_seq. Qed.

Lemma filter_all {X : Type} (f : X -> bool) (l : list X) :
  (forall x, In x l -> f x = true) -> filter f l = l.
Proof.
  induction l as [|x l IH]; intros H; cbn; [reflexivity|].
  rewrite (H x (or_introl eq_refl)), IH; [reflexivity|].
  intros y Hy. apply H. right. exact Hy.
Qed.

Lemma stamps_live (c : Clock) (k : nat) (now win : Z) :
  monotone c -> now < c 1%nat + win ->
  filter (fun t => now - win <? t) (stamps c k) = stamps c k.
Proof.
  intros Hm Hnow. apply filter_all. intros t Ht.
  unfold stamps in Ht. apply in_map_iff in Ht. destruct Ht as (i & <- & _).
  apply Z.ltb_lt. pose proof (Hm 1%nat (2 * i + 1)%nat ltac:(lia)). lia.
Qed.

Lemma tryAcquire_filled (c : Clock) (lim win : Z) (k : nat) (w : W) :
  monotone c -> c (2 * k)%nat < c 1%nat + win ->
  filled c lim win k w -> Z.of_nat k < lim ->
  fst (tryAcquire c w) = true /\ filled c lim win (S k) (snd (tryAcquire c w)).
Proof.
  intros Hm Hin (Hr & Ht & Hl & Hw) Hk.
  rewrite tryAcquire_eq. unfold live. cbv zeta.
  rewrite Hr, Ht, Hl, Hw, (stamps_live c k _ _ Hm Hin), stamps_length.
  destruct (Z.ltb_spec (Z.of_nat k) lim) as [_|]; [|lia].
  split; [reflexivity|].
  unfold filled, set_timestamps. cbn [snd reads obj timestamps limit window].
  rewrite stamps_S, Hl, Hw.
  replace (S (2 * k)) with (2 * k + 1)%nat by lia.
  repeat split; try reflexivity. lia.
Qed.

Lemma tryAcquire_n_filled (c : Clock) (lim win : Z) (n k : nat) (w : W) :
  monotone c -> c (2 * (k + n))%nat < c 1%nat + win ->
  filled c lim win k w -> Z.of_nat (k + n) <= lim ->
  fst (tryAcquire_n n c w) = repeat true n /\
  filled c lim win (k + n) (snd (tryAcquire_n n c w)).
Proof.
  intros Hm. revert k w. induction n as [|n IH]; intros k w Hin Hf Hk.
  - cbn. rewrite Nat.add_0_r. split; [reflexivity|exact Hf].
  - cbn [tryAcquire_n]. unfold bind at 1. cbv zeta.
    assert (Hin' : c (2 * k)%nat < c 1%nat + win).
    { pose proof (Hm (2 * k)%nat (2 * (k + S n))%nat ltac:(lia)). lia. }
    destruct (tryAcquire_filled c lim win k w Hm Hin' Hf ltac:(lia)) as [Hb Hf'].
    destruct (IH (S k) (snd (tryAcquire c w))) as [Hbs Hf''];
      [replace (S k + n)%nat with (k + S n)%nat by lia; exact Hin
      |exact Hf'|lia|].
    unfold bind, ret. cbn [fst snd]. rewrite Hb, Hbs.
    replace (k + S n)%nat with (S k + n)%nat by lia.
    split; [reflexivity|exact Hf''].
Qed.

Lemma filter_length_le {X : Type} (f : X -> bool) (l : list X) :
  (length (filter f l) <= length l)%nat.
Proof.
  induction l as [|x l IH]; cbn; [lia|]. destruct (f x); cbn; lia.
Qed.

(** A refused [acquire()] under "queue": the new waiter goes to the back,
    no callback is called and a drain timer is set. *)
Lemma acquire_enqueues (c : Clock) (w : W) :
  fst (tryAcquire c w) = false ->
  strategy (obj w) = SQueue ->
  fst (acquire c w) = Pending (promises w) /\
  queue (obj (snd (acquire c w))) = queue (obj w) ++ [promises w] /\
  trace (snd (acquire c w)) = trace w /\
  drainTimer (obj (snd (acquire c w))) <> None.
Proof.
  intros Hno Hq.
  destruct (tryAcquire_same c w) as [Hs Hdt].
  unfold same_queue in Hs. destruct Hs as (Hp & Ht & Hqu & _ & _ & Hst).
  rewrite acquire_eq. cbv zeta. rewrite Hno, Hst, Hq. cbn [fst snd].
  match goal with |- context [scheduleDrain c ?w2] =>
    destruct (scheduleDrain_same c w2) as (_ & Ht2 & Hq2 & _) end.
  rewrite Hq2, Ht2. cbn [queue trace obj set_queue].
  repeat split; try congruence.
  unfold scheduleDrain. unfold_host.
  destruct (drainTimer (obj (snd (tryAcquire c w)))) eqn:Ed; cbn;
    [rewrite Ed|]; discriminate.
Qed.

(** *** The claims about the rate limiter *)

(** C3. A limiter built with limit [L > 0] grants [L] consecutive
    [tryAcquire()] calls and refuses the next one, as long as the clock
    readings of these calls stay inside the window opened by the first
    timestamp; once the oldest timestamp has left the window, a further
    [tryAcquire()] is granted again. *)
Theorem tryAcquire_window (options : RateLimiterOptions) (c : Clock) :
  let L := Z.to_nat (opt_limit options) in
  let r := tryAcquire_n L c (fresh options) in
  let full := tryAcquire c (snd r) in
  0 < opt_limit options ->
  monotone c ->
  c (2 * L)%nat < c 1%nat + opt_window options ->
  fst r = repeat true L /\
  fst full = false /\
  hd_error (timestamps (obj (snd full))) = Some (c 1%nat) /\
  (forall oldest : Z,
      hd_error (timestamps (obj (snd full))) = Some oldest ->
      oldest + opt_window options <= c (reads (snd full)) ->
      fst (tryAcquire c (snd full)) = true).
Proof.
  intros L r full Hpos Hm Hin.
  assert (HL : Z.of_nat L = opt_limit options) by (subst L; lia).
  assert (Hf0 : filled c (opt_limit options) (opt_window options) 0 (fresh options))
    by (repeat split).
  destruct (tryAcquire_n_filled c _ _ L 0 (fresh options) Hm Hin Hf0 ltac:(cbn; lia))
    as [Hr Hf].
  fold r in Hr, Hf. cbn [Nat.add] in Hf.
  destruct Hf as (Hreads & Hts & Hlim & Hwin).
  assert (Hfull : full =
            (false, mkWorld (S (2 * L)) (promises (snd r)) (trace (snd r))
                      (set_timestamps (stamps c L) (obj (snd r))))).
  { subst full. rewrite tryAcquire_eq. unfold live. cbv zeta.
    rewrite Hreads, Hts, Hlim, Hwin, (stamps_live c L _ _ Hm Hin), stamps_length.
    destruct (Z.ltb_spec (Z.of_nat L) (opt_limit options)); [lia|reflexivity]. }
  assert (Hhd : stamps c L = c 1%nat :: map (fun i => c (2 * i + 1)%nat) (seq 1 (L - 1))).
  { unfold stamps. destruct L as [|L']; [lia|].
    cbn [seq map]. replace (S L' - 1)%nat with L' by lia. reflexivity. }
  split; [exact Hr|]. split; [rewrite Hfull; reflexivity|].
  split; [rewrite Hfull; cbn; rewrite Hhd; reflexivity|].
  intros oldest Hold Hgone. rewrite Hfull in *.
  cbn [snd obj reads timestamps set_timestamps] in Hold, Hgone.
  rewrite tryAcquire_eq. unfold live. cbv zeta.
  cbn [snd obj reads timestamps set_timestamps limit window].
  rewrite Hlim, Hwin. rewrite Hhd in *. cbn [hd_error] in Hold.
  injection Hold as <-. cbn [filter].
  destruct (Z.ltb_spec (c (S (2 * L)) - opt_window options) (c 1%nat)) as [|_]; [lia|].
  match goal with |- fst (if Z.of_nat (length (filter ?f ?l)) <? _ then _ else _) = _ =>
    pose proof (filter_length_le f l) as Hle end.
  rewrite length_map, length_seq in Hle.
  destruct (Z.ltb_spec (Z.of_nat (length (filter
     (fun t => c (S (2 * L)) - opt_window options <? t)
     (map (fun i => c (2 * i + 1)%nat) (seq 1 (L - 1))))))
     (opt_limit options)); [reflexivity|lia].
Qed.

Lemma tryAcquire_window_witness :
  let options := {| opt_limit := 2; opt_window := 50; opt_strategy := None |} in
  let c : Clock := fun n => Z.of_nat n in
  (0 < opt_limit options /\ monotone c /\
   c (2 * Z.to_nat (opt_limit options))%nat < c 1%nat + opt_window options) /\
  fst (tryAcquire_n 2 c (fresh options)) = [true; true] /\
  fst (tryAcquire c (snd (tryAcquire_n 2 c (fresh options)))) = false.
Proof.
  intros options c.
  assert (H1 : 0 < opt_limit options) by reflexivity.
  assert (H2 : monotone c) by (intros i j H; unfold c; lia).
  assert (H3 : c (2 * Z.to_nat (opt_limit options))%nat
               < c 1%nat + opt_window options) by reflexivity.
  split; [repeat split; assumption|].
  pose proof (tryAcquire_window options c H1 H2 H3) as (Ha & Hb & _).
  split; [exact Ha|exact Hb].
Defined.

(** C9. The constructor validates nothing: a limit [<= 0] is stored as it
    is, and from then on every [tryAcquire()] is refused and [remaining()]
    is 0. *)
Theorem nonpositive_limit_never_grants
    (options : RateLimiterOptions) (ops : list Op) (c : Clock) :
  opt_limit options <= 0 ->
  let w := snd (run ops c (fresh options)) in
  limit (constructor options) = opt_limit options /\
  fst (tryAcquire c w) = false /\
  fst (remaining c w) = 0.
Proof.
  intros Hle w.
  destruct (run_config ops c (fresh options)) as (Hl & _ & _).
  fold w in Hl. cbn in Hl.
  split; [reflexivity|].
  rewrite tryAcquire_eq, remaining_eq. cbv zeta. rewrite Hl.
  split.
  - destruct (Z.ltb_spec (Z.of_nat (length (live (c (reads w)) (obj w))))
                (opt_limit options)); [lia|reflexivity].
  - cbn [fst]. lia.
Qed.

Lemma nonpositive_limit_never_grants_witness :
  let options :=
    {| opt_limit := 0; opt_window := 10; opt_strategy := Some SQueue |} in
  let c : Clock := fun _ => 5 in
  opt_limit options <= 0 /\
  fst (tryAcquire c (snd (run [OpAcquire; OpTimer] c (fresh options)))) = false /\
  fst (remaining c (snd (run [OpAcquire; OpTimer] c (fresh options)))) = 0.
Proof.
  intros options c.
  assert (H : opt_limit options <= 0) by (cbn; lia).
  split; [exact H|].
  exact (proj2 (nonpositive_limit_never_grants options [OpAcquire; OpTimer] c H)).
Defined.

(** C4. When [tryAcquire()] refuses, [acquire()] rejects with a
    [RateLimitError] carrying the limit and the window exactly under the
    "error" strategy, fulfils with [false] exactly under "drop", and under
    "queue" appends a waiter and hands back its pending promise; no run of
    the limiter ever calls a waiter's [reject]. *)
Theorem acquire_refused (c : Clock) (w : W) :
  fst (tryAcquire c w) = false ->
  let r := acquire c w in
  let s := strategy (obj w) in
  (s = SError <-> exists e : RateLimitError, fst r = Rejected e) /\
  (forall e : RateLimitError,
      fst r = Rejected e ->
      e = new_RateLimitError (limit (obj w)) (window (obj w)) /\
      err_limit e = limit (obj w) /\ err_window e = window (obj w) /\
      trace (snd r) = trace w) /\
  (s = SDrop <-> fst r = Fulfilled false) /\
  (s = SDrop -> trace (snd r) = trace w /\ queue (obj (snd r)) = queue (obj w)) /\
  (s = SQueue ->
     fst r = Pending (promises w) /\
     queue (obj (snd r)) = queue (obj w) ++ [promises w] /\
     drainTimer (obj (snd r)) <> None) /\
  (forall ops : list Op,
      rejected (trace (snd (run ops c (snd r)))) = rejected (trace w)).
Proof.
  intros Hno r s.
  assert (Htr : trace (snd r) = trace w).
  { destruct (acquire_effect c w) as [H|H];
      [unfold same_queue in H|unfold enqueued in H]; decompose [and] H;
      assumption. }
  assert (Hrej : forall ops : list Op,
             rejected (trace (snd (run ops c (snd r)))) = rejected (trace w))
    by (intros ops; rewrite run_rejected, Htr; reflexivity).
  destruct (tryAcquire_same c w) as [Hs Hdt].
  unfold same_queue in Hs. destruct Hs as (Hp & _ & Hq & Hl & Hw & Hst).
  subst r s. revert Htr Hrej. rewrite acquire_eq. cbv zeta. rewrite Hno, Hst, Hl, Hw.
  destruct (strategy (obj w)) eqn:Es; cbn [fst snd]; intros Htr Hrej.
  - (* drop *)
    repeat split; try congruence; try (intros [e He]; congruence);
      try (intros e He; congruence).
  - (* queue *)
    destruct (acquire_enqueues c w Hno Es) as (Ha & Hb & _ & Hd).
    rewrite acquire_eq in Ha, Hb, Hd. cbv zeta in Ha, Hb, Hd.
    rewrite Hno, Hst in Ha, Hb, Hd. cbn [fst snd] in Ha, Hb, Hd.
    repeat split; try congruence; try (intros [e He]; congruence);
      try (intros e He; congruence).
  - (* error *)
    repeat split; try congruence; try (intros e He; congruence).
    + intros _. eexists. reflexivity.
    + injection H as <-. reflexivity.
    + injection H as <-. reflexivity.
Qed.

Lemma acquire_refused_witness :
  let options :=
    {| opt_limit := 1; opt_window := 1000; opt_strategy := Some SError |} in
  let c : Clock := fun n => Z.of_nat n in
  let w := snd (acquire c (fresh options)) in
  fst (tryAcquire c w) = false /\
  forall e : RateLimitError,
    fst (acquire c w) = Rejected e ->
    e = new_RateLimitError 1 1000 /\ err_limit e = 1 /\ err_window e = 1000 /\
    trace (snd (acquire c w)) = trace w.
Proof.
  intros options c w.
  assert (H : fst (tryAcquire c w) = false) by reflexivity.
  split; [exact H|].
  exact (proj1 (proj2 (acquire_refused c w H))).
Defined.


(** A slot can already be free when the waiter is queued: the limiter below
    refuses at reading 50, finds the slot free at reading 60 (the drain is set
    to the 10 ms floor), and still leaves the waiter pending until the timer
    fires. *)
Example queued_although_slot_is_free :
  let options :=
    {| opt_limit := 1; opt_window := 50; opt_strategy := Some SQueue |} in
  let c : Clock := fun n => nth n [0; 1; 50; 60; 60; 60; 61] 61 in
  let w1 := snd (acquire c (fresh options)) in
  let r := acquire c w1 in
  fst r = Pending 0%nat /\
  queue (obj (snd r)) = [0%nat] /\
  trace (snd r) = [] /\
  drainTimer (obj (snd r)) = Some (Ms 10) /\
  fst (remaining c (snd r)) = 1 /\
  trace (snd (step OpTimer c (snd r))) = [Resolve 0%nat].
Proof. cbv zeta. repeat split. Qed.

(** C6. [reset()] empties the timestamps (so [remaining()] is the limit
    again), calls [resolve] of every queued waiter, in queue order and
    without reading the clock or taking slots, empties the queue and clears
    the drain timer. *)
Theorem reset_wipes (c : Clock) (w : W) :
  0 <= limit (obj w) ->
  let w' := snd (reset c w) in
  timestamps (obj w') = [] /\
  fst (remaining c w') = limit (obj w) /\
  trace w' = trace w ++ map Resolve (queue (obj w)) /\
  reads w' = reads w /\
  queue (obj w') = [] /\
  drainTimer (obj w') = None.
Proof.
  intros Hl w'. subst w'. rewrite reset_eq. cbn [snd obj timestamps queue drainTimer trace reads].
  repeat split. rewrite remaining_eq. unfold live. cbn. lia.
Qed.

Lemma reset_wipes_witness :
  let options :=
    {| opt_limit := 1; opt_window := 1000; opt_strategy := Some SQueue |} in
  let c : Clock := fun n => Z.of_nat n in
  let w := snd (run [OpAcquire; OpAcquire; OpAcquire] c (fresh options)) in
  0 <= limit (obj w) /\
  queue (obj w) = [0%nat; 1%nat] /\
  timestamps (obj (snd (reset c w))) = [] /\
  fst (remaining c (snd (reset c w))) = 1 /\
  trace (snd (reset c w)) = [Resolve 0%nat; Resolve 1%nat].
Proof.
  intros options c w.
  assert (H : 0 <= limit (obj w)) by (cbn; lia).
  split; [exact H|]. split; [reflexivity|].
  destruct (reset_wipes c w H) as (H1 & H2 & H3 & _).
  repeat split; assumption.
Defined.

End RateLimiterFacts.

(** * Facts about throttle *)

Module ThrottleFacts.
Import Throttle.

Section WithFn.
Context {A R : Type}.
Variable fn : A -> R.
Variable wait : Z.
Variable options : ThrottleOptions.

Lemma execute_eq (args : A) (c : Clock) (w : W A) :
  execute fn args c w =
  (Some (fn args),
   mkWorld (S (reads w)) (promises w) (trace w ++ [args])
     (mkState (lastCallTime (obj w)) (c (reads w)) (timer (obj w))
        (lastArgs (obj w)) false)).
Proof. reflexivity. Qed.

(** The leading edge in general.  A call that finds the window elapsed, with
    [leading] on, calls [fn] at once with the call's arguments and hands back
    its result; the timer is cleared, [lastExecTime] becomes the clock
    reading taken by [execute] and the pending flag is cleared.  [lastArgs]
    is left holding the call's arguments: this path does not clear them. *)
Theorem throttled_leading_edge (args : A) (c : Clock) (w : W A) :
  let now := c (reads w) in
  let r := throttled fn wait options args c w in
  wait <= now - lastExecTime (obj w) ->
  leading options = true ->
  fst r = Some (fn args) /\
  trace (snd r) = trace w ++ [args] /\
  lastExecTime (obj (snd r)) = c (S (reads w)) /\
  timer (obj (snd r)) = None /\
  isPending (obj (snd r)) = false /\
  lastCallTime (obj (snd r)) = Some now /\
  lastArgs (obj (snd r)) = Some args.
Proof.
  destruct w as [rd pr tr [lct lex tm la ip]].
  intros now r Hel Hlead. subst r now. cbn in Hel.
  unfold throttled, clear_timer, execute. unfold_host.
  destruct (Z.leb_spec wait (c rd - lex)) as [_|]; [|lia].
  rewrite Hlead.
  destruct tm; cbn; repeat split.
Qed.

(** C7, amended. A call that schedules the trailing timer hands
    [wait - elapsed] to [setTimeout] as it is: the delay is
    [max 0 (wait - elapsed)] when [elapsed <= wait] and negative when
    [elapsed > wait] (which needs [leading] off). *)
Theorem throttled_trailing_delay (args : A) (c : Clock) (w : W A) :
  let elapsed := c (reads w) - lastExecTime (obj w) in
  let r := throttled fn wait options args c w in
  trailing options = true ->
  (wait <= elapsed -> leading options = false) ->
  (elapsed < wait -> timer (obj w) = None) ->
  fst r = None /\
  timer (obj (snd r)) = Some (wait - elapsed) /\
  isPending (obj (snd r)) = true /\
  lastArgs (obj (snd r)) = Some args /\
  trace (snd r) = trace w /\
  (elapsed <= wait -> wait - elapsed = Z.max 0 (wait - elapsed)) /\
  (wait < elapsed -> wait - elapsed < 0).
Proof.
  destruct w as [rd pr tr [lct lex tm la ip]].
  intros elapsed r Htr Hlead Hfree. subst r. cbn in elapsed, Hfree.
  unfold throttled, clear_timer. unfold_host. fold elapsed.
  rewrite Htr.
  destruct (Z.leb_spec wait elapsed) as [Hge|Hlt].
  - rewrite (Hlead Hge).
    destruct tm; cbn; repeat split; lia.
  - rewrite (Hfree Hlt). cbn. repeat split; lia.
Qed.

(** C8. With a timer set and arguments pending, [flush()] clears the
    timer, calls [fn] with the pending arguments and clears them; a second
    [flush()] right after changes nothing and calls nothing. *)
Theorem flush_idempotent (c : Clock) (w : W A) (d : Z) (a : A) :
  timer (obj w) = Some d ->
  lastArgs (obj w) = Some a ->
  let w1 := snd (flush fn c w) in
  timer (obj w1) = None /\
  lastArgs (obj w1) = None /\
  isPending (obj w1) = false /\
  lastExecTime (obj w1) = c (reads w) /\
  trace w1 = trace w ++ [a] /\
  flush fn c w1 = (tt, w1).
Proof.
  destruct w as [rd pr tr [lct lex tm la ip]]. cbn.
  intros -> ->. cbn. repeat split.
Qed.

(** [flush()] without a timer is the identity. *)
Lemma flush_without_timer (c : Clock) (w : W A) :
  timer (obj w) = None -> flush fn c w = (tt, w).
Proof.
  intros Ht. unfold flush. unfold_host. rewrite Ht. cbn.
  destruct w; reflexivity.
Qed.
End WithFn.


Lemma throttled_leading_edge_witness :
  let c : Clock := fun n => 1000 + Z.of_nat n in
  let options := {| opt_leading := None; opt_trailing := None |} in
  let r := throttled Z.succ 100 options 7 c fresh in
  (100 <= c 0%nat - lastExecTime (obj (@fresh Z)) /\ leading options = true) /\
  fst r = Some 8 /\ trace (snd r) = [7] /\ lastExecTime (obj (snd r)) = 1001.
Proof.
  intros c options r.
  assert (H1 : 100 <= c (reads (@fresh Z)) - lastExecTime (obj (@fresh Z)))
    by (cbn; lia).
  assert (H2 : leading options = true) by reflexivity.
  split; [split; assumption|].
  destruct (throttled_leading_edge Z.succ 100 options 7 c fresh H1 H2)
    as (Ha & Hb & Hc & _).
  repeat split; assumption.
Defined.

(** C7, as stated, fails: with [leading] off the first call of a wrapper
    finds [elapsed > wait] and asks for a negative delay. *)
Lemma throttled_trailing_delay_negative :
  let c : Clock := fun _ => 1000 in
  let r := throttled Z.succ 50 throttleTrailing_options 7 c fresh in
  let elapsed := c 0%nat - lastExecTime (obj (@fresh Z)) in
  trailing throttleTrailing_options = true /\
  timer (obj (@fresh Z)) = None /\
  timer (obj (snd r)) = Some (-950) /\
  timer (obj (snd r)) <> Some (Z.max 0 (50 - elapsed)).
Proof. cbv zeta. repeat split; cbn; discriminate. Qed.

Lemma throttled_trailing_delay_witness :
  let c2 : Clock := fun _ => 40 in
  let w0 : W Z := mkWorld 0%nat 0%nat [] (mkState None 20 None None false) in
  let options := {| opt_leading := None; opt_trailing := None |} in
  let elapsed := c2 (reads w0) - lastExecTime (obj w0) in
  (trailing options = true /\
   (50 <= elapsed -> leading options = false) /\
   (elapsed < 50 -> timer (obj w0) = None)) /\
  timer (obj (snd (throttled Z.succ 50 options 7 c2 w0))) = Some 30.
Proof.
  intros c2 w0 options elapsed.
  assert (H1 : trailing options = true) by reflexivity.
  assert (H2 : 50 <= elapsed -> leading options = false)
    by (unfold elapsed; cbn; lia).
  assert (H3 : elapsed < 50 -> timer (obj w0) = None) by reflexivity.
  split; [repeat split; assumption|].
  exact (proj1 (proj2 (throttled_trailing_delay Z.succ 50 options 7 c2 w0 H1 H2 H3))).
Defined.

Lemma flush_idempotent_witness :
  let c : Clock := fun n => 1000 + Z.of_nat n in
  let options := {| opt_leading := None; opt_trailing := None |} in
  let w := snd (throttled Z.succ 100 options 8 c
                  (snd (throttled Z.succ 100 options 7 c fresh))) in
  (timer (obj w) = Some 99 /\ lastArgs (obj w) = Some 8) /\
  trace (snd (flush Z.succ c w)) = [7; 8] /\
  flush Z.succ c (snd (flush Z.succ c w)) = (tt, snd (flush Z.succ c w)).
Proof.
  intros c options w.
  assert (H1 : timer (obj w) = Some 99) by reflexivity.
  assert (H2 : lastArgs (obj w) = Some 8) by reflexivity.
  split; [split; assumption|].
  destruct (flush_idempotent Z.succ c w 99 8 H1 H2) as (_ & _ & _ & _ & Ha & Hb).
  split; assumption.
Defined.

End ThrottleFacts.

(** * Facts about debounce *)

Module DebounceFacts.
Import Debounce.

Section WithOptions.
Context {A : Type}.
Variable wait : Z.
Variable options : DebounceOptions.

Ltac crush_state w :=
  destruct w as [rd pr tr [[tm|] [mt|] [la|] [|] [|]]];
  destruct options as [[[|]|] [mw|]];
  cbn in *; try reflexivity; try discriminate; try tauto.

Lemma step_inv (o : Op A) (c : Clock) (w : W A) :
  inv options (obj w) = true ->
  inv options (obj (snd (step wait options o c w))) = true.
Proof.
  unfold inv, leading, step, debounced, cancel, flush, timer_fire,
    maxTimer_fire, execute, maxWait.
  unfold_host. destruct o; crush_state w.
Qed.

Lemma debounced_run_cons (o : Op A) (ops : list (Op A)) (c : Clock) (w : W A) :
  run wait options (o :: ops) c w =
  run wait options ops c (snd (step wait options o c w)).
Proof. reflexivity. Qed.

Lemma run_inv (ops : list (Op A)) (c : Clock) (w : W A) :
  inv options (obj w) = true ->
  inv options (obj (snd (run wait options ops c w))) = true.
Proof.
  revert w. induction ops as [|o ops IH]; intros w H; [exact H|].
  rewrite debounced_run_cons. apply IH, step_inv, H.
Qed.

Lemma fresh_inv : inv options (obj (@fresh A)) = true.
Proof. unfold inv. destruct (leading options); reflexivity. Qed.

(** While the quiet-period timer is set, there are arguments stored: the
    branch of the timer callback that only clears the flags is never
    taken. *)
Lemma timer_callback_always_executes (ops : list (Op A)) (c : Clock) :
  let w := snd (run wait options ops c fresh) in
  timer (obj w) <> None ->
  timer_fire options c w = execute c (snd (modify (set_timer A None) c w)).
Proof.
  intros w Ht.
  pose proof (run_inv ops c fresh fresh_inv) as Hinv. fold w in Hinv.
  revert Ht Hinv. generalize w. clear w. intros w.
  unfold inv, timer_fire, leading. unfold_host.
  destruct w as [rd pr tr [[tm|] mt [la|] ip lc]]; cbn;
    intros Ht Hinv; try congruence.
  - destruct (opt_leading options) as [[|]|]; reflexivity.
  - destruct ip, lc; discriminate.
Qed.

Lemma debounced_in_burst (a : A) (c : Clock) (w : W A) :
  leading options = true ->
  in_burst (obj (snd (debounced wait options a c w))).
Proof.
  unfold in_burst, debounced, maxWait. unfold_host. intros ->.
  destruct w as [rd pr tr [tm [mt|] la ip [|]]];
    destruct (opt_maxWait options); cbn; repeat split; discriminate.
Qed.

Lemma calls_in_burst (more : list A) (c : Clock) (w : W A) :
  leading options = true ->
  in_burst (obj w) ->
  in_burst (obj (snd (run wait options (map OpCall more) c w))).
Proof.
  intros Hl. revert w. induction more as [|a more IH]; intros w H; [exact H|].
  cbn [map]. rewrite debounced_run_cons. apply IH.
  cbn [step]. apply debounced_in_burst, Hl.
Qed.

(** C10. With [leading] on, [pending] is true after a call, although a call
    that opens a burst has already run [fn], and stays true through any
    further calls; it becomes false when the quiet-period timer or the
    [maxWait] timer fires and on [cancel()] and [flush()]. *)
Theorem pending_until_burst_resolves
    (ops : list (Op A)) (a : A) (more : list A) (c : Clock) :
  leading options = true ->
  let w0 := snd (run wait options ops c fresh) in
  let w1 := snd (debounced wait options a c w0) in
  let w2 := snd (run wait options (map OpCall more) c w1) in
  (isPending (obj w0) = false -> trace w1 = trace w0 ++ [a]) /\
  fst (pending c w1) = true /\
  fst (pending c w2) = true /\
  leadingCalled (obj w2) = true /\
  (forall o : Op A,
      In o [OpCancel; OpFlush; OpTimer] ->
      fst (pending c (snd (step wait options o c w2))) = false) /\
  (maxTimer (obj w2) <> None ->
   fst (pending c (snd (step wait options OpMaxTimer c w2))) = false).
Proof.
  intros Hl w0 w1 w2.
  pose proof (run_inv ops c fresh fresh_inv) as Hinv. fold w0 in Hinv.
  pose proof (debounced_in_burst a c w0 Hl) as H1. fold w1 in H1.
  pose proof (calls_in_burst more c w1 Hl H1) as H2. fold w2 in H2.
  split; [|split; [|split; [|split; [|split]]]].
  - subst w1. revert Hinv. generalize w0. intros w.
    unfold inv, debounced, maxWait. unfold_host. rewrite Hl.
    destruct w as [rd pr tr [tm [mt|] la [|] [|]]];
      destruct (opt_maxWait options); cbn; intros Hi Hp;
      try discriminate; try reflexivity;
      destruct tm; try discriminate.
  - apply H1.
  - apply H2.
  - apply H2.
  - revert H2. generalize w2. intros w (Hp & Hc & Ht) o Ho.
    unfold step, cancel, flush, timer_fire, execute, pending. unfold_host.
    destruct w as [rd pr tr [[tm|] [mt|] [la|] ip lc]];
      cbn in Hp, Hc, Ht; try congruence;
      cbn in Ho; destruct Ho as [<-|[<-|[<-|[]]]]; cbn; try reflexivity;
      destruct (leading options); reflexivity.
  - revert H2. generalize w2. intros w (Hp & Hc & Ht) Hm.
    unfold step, maxTimer_fire, execute, pending. unfold_host.
    destruct w as [rd pr tr [tm [mt|] [la|] ip lc]];
      cbn in Hm; try congruence; reflexivity.
Qed.
End WithOptions.

(** C1 fails on the code. The leading call leaves its arguments in
    [lastArgs], so the quiet-period timer of a single call finds them and
    calls [fn] a second time. *)
Theorem leading_single_call_fires_twice
    {A : Type} (wait : Z) (mw : option Z) (a : A) (c : Clock) :
  let options := {| opt_leading := Some true; opt_maxWait := mw |} in
  let w1 := snd (debounced wait options a c fresh) in
  let w2 := snd (step wait options OpTimer c w1) in
  trace w1 = [a] /\ lastArgs (obj w1) = Some a /\ timer (obj w1) = Some wait /\
  trace w2 = [a; a] /\ isPending (obj w2) = false /\
  leadingCalled (obj w2) = false.
Proof. destruct mw; repeat split. Qed.

Lemma pending_until_burst_resolves_witness :
  let options := {| opt_leading := Some true; opt_maxWait := Some 80 |} in
  let c : Clock := fun _ => 0 in
  let w2 := snd (run 50 options [OpCall 1; OpCall 2; OpCall 3] c fresh) in
  leading options = true /\
  fst (pending c w2) = true /\ trace w2 = [1] /\
  fst (pending c (snd (step 50 options OpTimer c w2))) = false.
Proof.
  intros options c w2.
  assert (H : leading options = true) by reflexivity.
  split; [exact H|].
  destruct (pending_until_burst_resolves 50 options [] 1 [2; 3] c H)
    as (_ & _ & Hp & _ & Hr & _).
  split; [exact Hp|]. split; [reflexivity|].
  apply (Hr OpTimer). right. right. left. reflexivity.
Defined.

End DebounceFacts.

(** * More about the rate limiter *)

Module RateLimiterExtra.
Import RateLimiter RateLimiterFacts.

(** *** A rule for invariants over the clock position and the timestamps *)

Lemma tryAcquire_split (c : Clock) (w : W) :
  tryAcquire c w =
  let w1 := snd (cleanup c w) in
  if Z.of_nat (length (timestamps (obj w1))) <? limit (obj w1)
  then (true, mkWorld (S (reads w1)) (promises w1) (trace w1)
                (set_timestamps (timestamps (obj w1) ++ [c (reads w1)]) (obj w1)))
  else (false, w1).
Proof.
  rewrite tryAcquire_eq. cbn. destruct (_ <? _); reflexivity.
Qed.

Lemma retryAfter_split (c : Clock) (w : W) :
  retryAfter c w =
  let w1 := snd (cleanup c w) in
  if Z.of_nat (length (timestamps (obj w1))) <? limit (obj w1)
  then (Ms 0, w1)
  else (match timestamps (obj w1) with
        | oldest :: _ => Ms (Z.max 0 (oldest + window (obj w1) - c (reads w1)))
        | [] => NaN
        end,
        mkWorld (S (reads w1)) (promises w1) (trace w1) (obj w1)).
Proof.
  unfold retryAfter, cleanup. unfold_host. unfold live.
  destruct (_ <? _); [reflexivity|].
  destruct (filter _ _); reflexivity.
Qed.

Section InvariantRule.
Variable c : Clock.
Variable I : W -> Prop.

Hypothesis I_frame : forall w w' : W,
  reads w' = reads w -> timestamps (obj w') = timestamps (obj w) ->
  limit (obj w') = limit (obj w) -> window (obj w') = window (obj w) ->
  I w -> I w'.
Hypothesis I_cleanup : forall w : W, I w -> I (snd (cleanup c w)).
Hypothesis I_push : forall w : W,
  I w -> Z.of_nat (length (timestamps (obj w))) < limit (obj w) ->
  I (mkWorld (S (reads w)) (promises w) (trace w)
       (set_timestamps (timestamps (obj w) ++ [c (reads w)]) (obj w))).
Hypothesis I_read : forall w : W,
  I w -> I (mkWorld (S (reads w)) (promises w) (trace w) (obj w)).
Hypothesis I_reset : forall w : W,
  I w -> I (mkWorld (reads w) (promises w) (trace w) (set_timestamps [] (obj w))).

Lemma tryAcquire_keeps (w : W) : I w -> I (snd (tryAcquire c w)).
Proof.
  intros H. rewrite tryAcquire_split. cbv zeta.
  destruct (Z.ltb_spec (Z.of_nat (length (timestamps (obj (snd (cleanup c w))))))
              (limit (obj (snd (cleanup c w))))) as [Hlt|_]; cbn [snd].
  - apply I_push; [apply I_cleanup, H|exact Hlt].
  - apply I_cleanup, H.
Qed.

Lemma retryAfter_keeps (w : W) : I w -> I (snd (retryAfter c w)).
Proof.
  intros H. rewrite retryAfter_split. cbv zeta.
  destruct (_ <? _); cbn [snd].
  - apply I_cleanup, H.
  - apply I_read, I_cleanup, H.
Qed.

Lemma scheduleDrain_keeps (w : W) : I w -> I (snd (scheduleDrain c w)).
Proof.
  intros H. unfold scheduleDrain. unfold_host.
  destruct (drainTimer (obj w)); cbn; [exact H|].
  apply (I_frame (snd (retryAfter c w))); try reflexivity.
  apply retryAfter_keeps, H.
Qed.

Lemma acquire_keeps (w : W) : I w -> I (snd (acquire c w)).
Proof.
  intros H. rewrite acquire_eq. cbv zeta.
  pose proof (tryAcquire_keeps w H) as H1.
  destruct (fst (tryAcquire c w)); [exact H1|].
  destruct (strategy _); cbn [snd]; try exact H1.
  apply scheduleDrain_keeps.
  apply (I_frame (snd (tryAcquire c w))); try reflexivity. exact H1.
Qed.

Lemma reset_keeps (w : W) : I w -> I (snd (reset c w)).
Proof.
  intros H. rewrite reset_eq. cbn [snd].
  apply (I_frame (mkWorld (reads w) (promises w) (trace w)
                    (set_timestamps [] (obj w)))); try reflexivity.
  apply I_reset, H.
Qed.

Lemma drainLoop_keeps (fuel : nat) (w : W) :
  I w -> I (snd (drainLoop fuel c w)).
Proof.
  revert w. induction fuel as [|n IH]; intros w H; [exact H|].
  rewrite drainLoop_eq. destruct (queue (obj w)); [exact H|].
  cbv zeta. pose proof (tryAcquire_keeps w H) as H1.
  destruct (fst (tryAcquire c w)); [|exact H1].
  destruct (queue (obj (snd (tryAcquire c w)))); apply IH; [exact H1|].
  apply (I_frame (snd (tryAcquire c w))); try reflexivity. exact H1.
Qed.

Lemma drainQueue_keeps (w : W) : I w -> I (snd (drainQueue c w)).
Proof.
  intros H. rewrite drainQueue_eq. cbv zeta.
  pose proof (drainLoop_keeps (length (queue (obj w))) w H) as H1.
  destruct (queue (obj (snd (drainLoop _ c w)))); [exact H1|].
  apply scheduleDrain_keeps, H1.
Qed.

Lemma step_keeps (o : Op) (w : W) : I w -> I (snd (step o c w)).
Proof.
  intros H. destruct o; cbn [step].
  - apply (tryAcquire_keeps w H).
  - apply (acquire_keeps w H).
  - apply (I_cleanup w H).
  - apply (retryAfter_keeps w H).
  - apply reset_keeps, H.
  - unfold bind at 1. unfold get at 1. cbn [fst snd].
    destruct (drainTimer (obj w)); [|exact H].
    unfold drainTimer_fire. unfold bind at 1. cbv zeta.
    apply drainQueue_keeps.
    apply (I_frame w); try reflexivity. exact H.
Qed.

Lemma run_keeps (ops : list Op) (w : W) : I w -> I (snd (run ops c w)).
Proof.
  revert w. induction ops as [|o ops IH]; intros w H; [exact H|].
  rewrite run_cons. apply IH, step_keeps, H.
Qed.
End InvariantRule.

(** *** The two invariants *)

Lemma capacity_kept (c : Clock) (ops : list Op) (w : W) :
  within_capacity w -> within_capacity (snd (run ops c w)).
Proof.
  apply run_keeps; unfold within_capacity.
  - intros w1 w2 _ Ht Hl _. rewrite Ht, Hl. trivial.
  - intros w1 H. cbn. unfold live.
    pose proof (filter_length_le
                  (fun t => c (reads w1) - window (obj w1) <? t)
                  (timestamps (obj w1))). lia.
  - intros w1 H Hlt. cbn. rewrite length_app. cbn. lia.
  - intros w1 H. exact H.
  - intros w1 H. cbn. lia.
Qed.

Lemma StronglySorted_filter (f : Z -> bool) (l : list Z) :
  StronglySorted Z.le l -> StronglySorted Z.le (filter f l).
Proof.
  induction 1 as [|x l Hs IH Hx]; cbn; [constructor|].
  destruct (f x); [|exact IH].
  constructor; [exact IH|].
  apply Forall_forall. intros y Hy. apply filter_In in Hy.
  rewrite Forall_forall in Hx. apply Hx, Hy.
Qed.

Lemma StronglySorted_snoc (l : list Z) (x : Z) :
  StronglySorted Z.le l -> (forall y, In y l -> y <= x) ->
  StronglySorted Z.le (l ++ [x]).
Proof.
  induction 1 as [|a l Hs IH Ha]; intros Hx; cbn.
  - constructor; constructor.
  - constructor.
    + apply IH. intros y Hy. apply Hx. right. exact Hy.
    + apply Forall_app. split; [exact Ha|].
      constructor; [apply Hx; left; reflexivity|constructor].
Qed.

Lemma stamped_kept (c : Clock) (ops : list Op) (w : W) :
  monotone c -> stamped c w -> stamped c (snd (run ops c w)).
Proof.
  intros Hm. apply run_keeps; unfold stamped.
  - intros w1 w2 Hr Ht _ _. rewrite Hr, Ht. trivial.
  - intros w1 [Hs Hin]. cbn. unfold live. split.
    + apply StronglySorted_filter, Hs.
    + intros t Ht. apply filter_In in Ht. destruct Ht as [Ht _].
      destruct (Hin t Ht) as (i & Hi & ->). exists i. split; [lia|reflexivity].
  - intros w1 [Hs Hin] _. cbn. split.
    + apply StronglySorted_snoc; [exact Hs|].
      intros y Hy. destruct (Hin y Hy) as (i & Hi & ->). apply Hm. lia.
    + intros t Ht. apply in_app_or in Ht. destruct Ht as [Ht|[<-|[]]].
      * destruct (Hin t Ht) as (i & Hi & ->). exists i. split; [lia|reflexivity].
      * exists (reads w1). split; [lia|reflexivity].
  - intros w1 [Hs Hin]. cbn. split; [exact Hs|].
    intros t Ht. destruct (Hin t Ht) as (i & Hi & ->).
    exists i. split; [lia|reflexivity].
  - intros w1 _. cbn. split; [constructor|]. intros t [].
Qed.

Lemma fresh_within_capacity (options : RateLimiterOptions) :
  within_capacity (fresh options).
Proof. unfold within_capacity. cbn. lia. Qed.

Lemma fresh_stamped (c : Clock) (options : RateLimiterOptions) :
  stamped c (fresh options).
Proof. split; [constructor|]. intros t []. Qed.

Lemma stamped_cleanup (c : Clock) (w : W) :
  stamped c w -> stamped c (snd (cleanup c w)).
Proof.
  intros [Hs Hin]. split; cbn; unfold live.
  - apply StronglySorted_filter, Hs.
  - intros t Ht. apply filter_In in Ht. destruct Ht as [Ht _].
    destruct (Hin t Ht) as (i & Hi & ->). exists i. split; [lia|reflexivity].
Qed.

Lemma live_length (now : Z) (s : State) :
  (length (live now s) <= length (timestamps s))%nat.
Proof. apply filter_length_le. Qed.

(** *** Capacity and order of the timestamps *)

(** After any history, the limiter holds at most [limit] timestamps (none
    when the limit is not positive). *)
Theorem capacity_never_exceeded
    (options : RateLimiterOptions) (ops : list Op) (c : Clock) :
  let w := snd (run ops c (fresh options)) in
  Z.of_nat (length (timestamps (obj w))) <= Z.max 0 (opt_limit options).
Proof.
  intros w.
  pose proof (capacity_kept c ops (fresh options) (fresh_within_capacity options)) as H.
  destruct (run_config ops c (fresh options)) as (Hl & _ & _).
  fold w in H, Hl. unfold within_capacity in H. rewrite Hl in H. exact H.
Qed.

(** With a clock that never runs backwards, the timestamps are kept oldest
    first after any history: the first one is the smallest, and none lies
    after the next clock reading. *)
Theorem timestamps_oldest_first
    (options : RateLimiterOptions) (ops : list Op) (c : Clock) :
  monotone c ->
  let w := snd (run ops c (fresh options)) in
  StronglySorted Z.le (timestamps (obj w)) /\
  (forall (oldest : Z) (rest : list Z),
      timestamps (obj w) = oldest :: rest ->
      forall t : Z, In t rest -> oldest <= t) /\
  (forall t : Z, In t (timestamps (obj w)) -> t <= c (reads w)).
Proof.
  intros Hm w.
  destruct (stamped_kept c ops (fresh options) Hm (fresh_stamped c options))
    as [Hs Hin].
  fold w in Hs, Hin. split; [exact Hs|]. split.
  - intros oldest rest E t Ht. rewrite E in Hs.
    apply StronglySorted_inv in Hs. destruct Hs as [_ Hall].
    rewrite Forall_forall in Hall. apply Hall, Ht.
  - intros t Ht. destruct (Hin t Ht) as (i & Hi & ->). apply Hm. lia.
Qed.

Lemma timestamps_oldest_first_witness :
  let options := {| opt_limit := 3; opt_window := 5; opt_strategy := None |} in
  let c : Clock := fun n => Z.of_nat n in
  let w := snd (run [OpTryAcquire; OpTryAcquire; OpRemaining; OpTryAcquire]
                  c (fresh options)) in
  monotone c /\ timestamps (obj w) = [1; 3; 6] /\
  StronglySorted Z.le (timestamps (obj w)).
Proof.
  intros options c w.
  assert (H : monotone c) by (intros i j Hij; unfold c; lia).
  split; [exact H|]. split; [reflexivity|].
  exact (proj1 (timestamps_oldest_first options
                  [OpTryAcquire; OpTryAcquire; OpRemaining; OpTryAcquire] c H)).
Defined.

Lemma retryAfter_eq (c : Clock) (w : W) :
  retryAfter c w =
  let ts := live (c (reads w)) (obj w) in
  if Z.of_nat (length ts) <? limit (obj w)
  then (Ms 0, mkWorld (S (reads w)) (promises w) (trace w)
                (set_timestamps ts (obj w)))
  else (match ts with
        | oldest :: _ =>
            Ms (Z.max 0 (oldest + window (obj w) - c (S (reads w))))
        | [] => NaN
        end,
        mkWorld (S (S (reads w))) (promises w) (trace w)
          (set_timestamps ts (obj w))).
Proof.
  rewrite retryAfter_split. cbn. destruct (_ <? _); reflexivity.
Qed.

(** [tryAcquire] on a world whose timestamps were just replaced. *)
Lemma tryAcquire_on (c : Clock) (k p : nat) (tr : list Callback)
    (ts : list Z) (s : State) :
  fst (tryAcquire c (mkWorld k p tr (set_timestamps ts s))) =
  (Z.of_nat (length (filter (fun t => c k - window s <? t) ts)) <? limit s).
Proof.
  rewrite tryAcquire_eq. unfold live. cbn.
  destruct (_ <? _); reflexivity.
Qed.

(** *** [retryAfter] *)

Lemma reachable_facts (options : RateLimiterOptions) (ops : list Op) (c : Clock) :
  let w := snd (run ops c (fresh options)) in
  within_capacity w /\ limit (obj w) = opt_limit options /\
  window (obj w) = opt_window options /\
  (monotone c -> stamped c w).
Proof.
  intros w.
  destruct (run_config ops c (fresh options)) as (Hl & Hw & _).
  split; [apply capacity_kept, fresh_within_capacity|].
  split; [exact Hl|]. split; [exact Hw|].
  intros Hm. apply stamped_kept; [exact Hm|apply fresh_stamped].
Qed.

(** With a positive limit and a clock that never runs backwards,
    [retryAfter()] is a number between 0 and the window. *)
Theorem retryAfter_bounds
    (options : RateLimiterOptions) (ops : list Op) (c : Clock) :
  monotone c -> 0 < opt_limit options ->
  let w := snd (run ops c (fresh options)) in
  exists z : Z,
    fst (retryAfter c w) = Ms z /\ 0 <= z <= Z.max 0 (opt_window options).
Proof.
  intros Hm Hpos w.
  destruct (reachable_facts options ops c) as (_ & Hl & Hw & Hst).
  fold w in Hl, Hw, Hst.
  pose proof (stamped_cleanup c w (Hst Hm)) as [_ Hin].
  rewrite retryAfter_split. cbv zeta.
  assert (Hl1 : limit (obj (snd (cleanup c w))) = opt_limit options) by exact Hl.
  assert (Hw1 : window (obj (snd (cleanup c w))) = opt_window options) by exact Hw.
  rewrite Hl1, Hw1.
  destruct (Z.ltb_spec
              (Z.of_nat (length (timestamps (obj (snd (cleanup c w))))))
              (opt_limit options)) as [_|Hfull]; cbn [fst].
  - exists 0. split; [reflexivity|lia].
  - destruct (timestamps (obj (snd (cleanup c w)))) as [|oldest rest] eqn:E.
    + cbn in Hfull. lia.
    + eexists. split; [reflexivity|].
      destruct (Hin oldest (or_introl eq_refl)) as (i & Hi & ->).
      pose proof (Hm i (reads (snd (cleanup c w))) ltac:(lia)). lia.
Qed.

Lemma retryAfter_bounds_witness :
  let options := {| opt_limit := 1; opt_window := 100; opt_strategy := None |} in
  let c : Clock := fun n => Z.of_nat n in
  (monotone c /\ 0 < opt_limit options) /\
  exists z : Z,
    fst (retryAfter c (snd (run [OpTryAcquire] c (fresh options)))) = Ms z /\
    0 <= z <= Z.max 0 (opt_window options).
Proof.
  intros options c.
  assert (H1 : monotone c) by (intros i j H; unfold c; lia).
  assert (H2 : 0 < opt_limit options) by reflexivity.
  split; [split; assumption|].
  exact (retryAfter_bounds options [OpTryAcquire] c H1 H2).
Defined.

(** With a limit [<= 0] no timestamp is ever stored, so [retryAfter()] reads
    [timestamps[0]] of an empty array and is NaN; a waiter queued then gets a
    drain timer whose delay is NaN. *)
Theorem retryAfter_nan
    (options : RateLimiterOptions) (ops : list Op) (c : Clock) :
  opt_limit options <= 0 ->
  let w := snd (run ops c (fresh options)) in
  fst (retryAfter c w) = NaN /\
  (strategy (obj w) = SQueue -> drainTimer (obj w) = None ->
   drainTimer (obj (snd (acquire c w))) = Some NaN).
Proof.
  intros Hle w.
  destruct (reachable_facts options ops c) as (Hcap & Hl & _ & _).
  fold w in Hcap, Hl. unfold within_capacity in Hcap.
  assert (Hts : timestamps (obj w) = []).
  { destruct (timestamps (obj w)); [reflexivity|]. cbn in Hcap. lia. }
  assert (Hnan : forall w' : W,
             timestamps (obj w') = [] -> limit (obj w') = opt_limit options ->
             fst (retryAfter c w') = NaN).
  { intros w' Ht Hl'. rewrite retryAfter_split. cbn. unfold live.
    rewrite Ht, Hl'. cbn.
    destruct (Z.ltb_spec 0 (opt_limit options)); [lia|reflexivity]. }
  split; [apply Hnan; assumption|].
  intros Hs Hd. rewrite acquire_eq, tryAcquire_eq. cbv zeta. unfold live.
  rewrite Hts, Hl. cbn [filter length].
  destruct (Z.ltb_spec (Z.of_nat 0) (opt_limit options)); [lia|].
  cbn [fst snd obj strategy set_timestamps]. rewrite Hs. cbn [snd].
  unfold scheduleDrain. unfold_host. rewrite Hd. cbn.
  rewrite Hnan; [reflexivity|reflexivity|exact Hl].
Qed.

Lemma retryAfter_nan_witness :
  let options :=
    {| opt_limit := 0; opt_window := 100; opt_strategy := Some SQueue |} in
  let c : Clock := fun n => Z.of_nat n in
  opt_limit options <= 0 /\
  fst (retryAfter c (fresh options)) = NaN /\
  drainTimer (obj (snd (acquire c (fresh options)))) = Some NaN.
Proof.
  intros options c.
  assert (H : opt_limit options <= 0) by (cbn; lia).
  split; [exact H|].
  destruct (retryAfter_nan options [] c H) as [Ha Hb].
  split; [exact Ha|]. apply Hb; reflexivity.
Defined.

(** Waiting as long as [retryAfter()] says is enough: if the clock has
    advanced by the returned delay, the next [tryAcquire()] is granted. *)
Theorem retryAfter_is_enough
    (options : RateLimiterOptions) (ops : list Op) (c : Clock) (z : Z) :
  let w := snd (run ops c (fresh options)) in
  let r := retryAfter c w in
  fst r = Ms z ->
  c (reads (snd r) - 1)%nat + z <= c (reads (snd r)) ->
  fst (tryAcquire c (snd r)) = true.
Proof.
  intros w r.
  destruct (reachable_facts options ops c) as (Hcap & _ & _ & _).
  fold w in Hcap. unfold within_capacity in Hcap.
  subst r. rewrite retryAfter_eq. cbv zeta.
  pose proof (live_length (c (reads w)) (obj w)) as Hlive.
  destruct (Z.ltb_spec (Z.of_nat (length (live (c (reads w)) (obj w))))
              (limit (obj w))) as [Hfree|Hfull]; cbn [fst snd reads];
    intros Hz Hwait; rewrite tryAcquire_on; apply Z.ltb_lt.
  - match goal with |- Z.of_nat (length (filter ?f ?l)) < _ =>
      pose proof (filter_length_le f l) end. lia.
  - destruct (live (c (reads w)) (obj w)) as [|oldest rest];
      [discriminate|].
    injection Hz as <-.
    replace (S (S (reads w)) - 1)%nat with (S (reads w)) in Hwait by lia.
    cbn [filter].
    destruct (Z.ltb_spec (c (S (S (reads w))) - window (obj w)) oldest); [lia|].
    match goal with |- Z.of_nat (length (filter ?f ?l)) < _ =>
      pose proof (filter_length_le f l) end.
    cbn [length] in Hlive, Hfull. lia.
Qed.

Lemma retryAfter_is_enough_witness :
  let options := {| opt_limit := 1; opt_window := 100; opt_strategy := None |} in
  let c : Clock := fun n => nth n [0; 5; 20; 30; 200] 300 in
  let w := snd (run [OpTryAcquire] c (fresh options)) in
  (fst (retryAfter c w) = Ms 75 /\
   c (reads (snd (retryAfter c w)) - 1)%nat + 75 <= c (reads (snd (retryAfter c w)))) /\
  fst (tryAcquire c (snd (retryAfter c w))) = true.
Proof.
  intros options c w.
  assert (H1 : fst (retryAfter c w) = Ms 75) by reflexivity.
  assert (H2 : c (reads (snd (retryAfter c w)) - 1)%nat + 75
               <= c (reads (snd (retryAfter c w)))) by (cbn; lia).
  split; [split; assumption|].
  exact (retryAfter_is_enough options [OpTryAcquire] c 75 H1 H2).
Defined.

(** Waiting less than a positive [retryAfter()] is not enough: with a clock
    that never runs backwards, a [tryAcquire()] made before the returned
    delay has passed is refused. *)
Theorem retryAfter_is_needed
    (options : RateLimiterOptions) (ops : list Op) (c : Clock) (z : Z) :
  monotone c ->
  let w := snd (run ops c (fresh options)) in
  let r := retryAfter c w in
  fst r = Ms z -> 0 < z ->
  c (reads (snd r)) < c (reads (snd r) - 1)%nat + z ->
  fst (tryAcquire c (snd r)) = false.
Proof.
  intros Hm w r.
  destruct (reachable_facts options ops c) as (_ & _ & _ & Hst).
  fold w in Hst.
  pose proof (stamped_cleanup c w (Hst Hm)) as [Hs _].
  change (timestamps (obj (snd (cleanup c w))))
    with (live (c (reads w)) (obj w)) in Hs.
  subst r. rewrite retryAfter_eq. cbv zeta.
  destruct (Z.ltb_spec (Z.of_nat (length (live (c (reads w)) (obj w))))
              (limit (obj w))) as [Hfree|Hfull]; cbn [fst snd reads];
    intros Hz Hpos Hwait; [injection Hz as <-; lia|].
  rewrite tryAcquire_on.
  destruct (live (c (reads w)) (obj w)) as [|oldest rest]; [discriminate|].
  injection Hz as <-.
  replace (S (S (reads w)) - 1)%nat with (S (reads w)) in Hwait by lia.
  rewrite filter_all; [apply Z.ltb_ge; exact Hfull|].
  intros t Ht. apply Z.ltb_lt.
  apply StronglySorted_inv in Hs. destruct Hs as [_ Hall].
  rewrite Forall_forall in Hall.
  destruct Ht as [<-|Ht]; [lia|]. pose proof (Hall t Ht). lia.
Qed.

Lemma retryAfter_is_needed_witness :
  let options := {| opt_limit := 1; opt_window := 100; opt_strategy := None |} in
  let c : Clock := fun n => Z.of_nat (10 * n) in
  let w := snd (run [OpTryAcquire] c (fresh options)) in
  (monotone c /\ fst (retryAfter c w) = Ms 80 /\ 0 < 80 /\
   c (reads (snd (retryAfter c w)))
   < c (reads (snd (retryAfter c w)) - 1)%nat + 80) /\
  fst (tryAcquire c (snd (retryAfter c w))) = false.
Proof.
  intros options c w.
  assert (H1 : monotone c) by (intros i j H; unfold c; lia).
  assert (H2 : fst (retryAfter c w) = Ms 80) by reflexivity.
  assert (H3 : 0 < 80) by lia.
  assert (H4 : c (reads (snd (retryAfter c w)))
               < c (reads (snd (retryAfter c w)) - 1)%nat + 80) by (cbn; lia).
  split; [repeat split; assumption|].
  exact (retryAfter_is_needed options [OpTryAcquire] c 80 H1 H2 H3 H4).
Defined.

(** *** Slots, waiters and the drain timer *)

(** [tryAcquire()] is granted exactly when [remaining()], asked at the same
    clock reading, is positive; and then [retryAfter()] is 0. *)
Theorem tryAcquire_iff_remaining (c : Clock) (w : W) :
  (fst (tryAcquire c w) = true <-> 0 < fst (remaining c w)) /\
  (0 < fst (remaining c w) -> fst (retryAfter c w) = Ms 0).
Proof.
  rewrite tryAcquire_eq, remaining_eq, retryAfter_eq. cbv zeta.
  destruct (Z.ltb_spec (Z.of_nat (length (live (c (reads w)) (obj w))))
              (limit (obj w))); cbn [fst]; split; try split;
    intros; try reflexivity; try discriminate; lia.
Qed.

Lemma drainLoop_timer (fuel : nat) (c : Clock) (w : W) :
  drainTimer (obj (snd (drainLoop fuel c w))) = drainTimer (obj w).
Proof.
  revert w. induction fuel as [|n IH]; intros w; [reflexivity|].
  rewrite drainLoop_eq. destruct (queue (obj w)); [reflexivity|].
  cbv zeta. destruct (tryAcquire_same c w) as [_ Hd].
  destruct (fst (tryAcquire c w)); [|exact Hd].
  destruct (queue (obj (snd (tryAcquire c w)))); rewrite IH; exact Hd.
Qed.

Lemma scheduleDrain_arms (c : Clock) (w : W) :
  drainTimer (obj (snd (scheduleDrain c w))) <> None.
Proof.
  unfold scheduleDrain. unfold_host.
  destruct (drainTimer (obj w)) eqn:E; cbn; [rewrite E|]; discriminate.
Qed.

Lemma drainTimer_fire_armed (c : Clock) (w : W) :
  armed (snd (drainTimer_fire c w)).
Proof.
  unfold drainTimer_fire. unfold bind at 1. cbv zeta.
  match goal with |- armed (snd (drainQueue c ?w0)) => set (w0' := w0) end.
  rewrite drainQueue_eq. cbv zeta.
  pose proof (drainLoop_timer (length (queue (obj w0'))) c w0') as Hd.
  destruct (queue (obj (snd (drainLoop _ c w0')))) as [|i rest] eqn:E.
  - unfold armed. cbn [snd]. rewrite E, Hd. split; reflexivity.
  - pose proof (scheduleDrain_arms c (snd (drainLoop (length (queue (obj w0'))) c w0'))) as Ha.
    destruct (scheduleDrain_same c (snd (drainLoop (length (queue (obj w0'))) c w0')))
      as (_ & _ & Hq & _).
    unfold armed. rewrite Hq, E. split; [intros H; contradiction|discriminate].
Qed.

Lemma step_timer_eq (c : Clock) (w : W) :
  step OpTimer c w =
  match drainTimer (obj w) with
  | Some _ => drainTimer_fire c w
  | None => (tt, w)
  end.
Proof.
  cbn [step]. unfold bind at 1. unfold get at 1. cbn [fst snd].
  destruct (drainTimer (obj w)); reflexivity.
Qed.

Lemma drainTimer_fire_eq (c : Clock) (w : W) :
  drainTimer_fire c w =
  drainQueue c (mkWorld (reads w) (promises w) (trace w)
                  (set_drainTimer None (obj w))).
Proof. reflexivity. Qed.

Lemma step_armed (o : Op) (c : Clock) (w : W) :
  armed w -> armed (snd (step o c w)).
Proof.
  intros H. destruct o; [| | | | |rewrite step_timer_eq;
    destruct (drainTimer (obj w)) eqn:Ed;
      [apply drainTimer_fire_armed|exact H]];
    unfold armed in *; cbn [step].
  - destruct (tryAcquire_same c w) as [(_ & _ & Hq & _) Hd].
    cbn [snd bind]. unfold bind, ret. cbn [snd]. rewrite Hq, Hd. exact H.
  - unfold bind, ret. cbn [snd]. rewrite acquire_eq. cbv zeta.
    destruct (tryAcquire_same c w) as [(_ & _ & Hq & _) Hd].
    destruct (fst (tryAcquire c w)); [cbn [snd]; rewrite Hq, Hd; exact H|].
    destruct (strategy _); cbn [snd]; try (rewrite Hq, Hd; exact H).
    match goal with |- context [scheduleDrain c ?w2] =>
      pose proof (scheduleDrain_arms c w2) as Ha;
      destruct (scheduleDrain_same c w2) as (_ & _ & Hq2 & _) end.
    rewrite Hq2. cbn [obj queue set_queue].
    split; [intros E; contradiction|].
    intros E. destruct (queue (obj (snd (tryAcquire c w)))); discriminate.
  - exact H.
  - destruct (retryAfter_same c w) as [(_ & _ & Hq & _) Hd].
    unfold bind, ret. cbn [snd]. rewrite Hq, Hd. exact H.
  - rewrite reset_eq. cbn. split; reflexivity.
Qed.

(** After any history a drain timer is outstanding exactly while waiters are
    queued: no waiter is left without a timer, no timer without a waiter. *)
Theorem drain_timer_iff_waiters
    (options : RateLimiterOptions) (ops : list Op) (c : Clock) :
  let w := snd (run ops c (fresh options)) in
  drainTimer (obj w) = None <-> queue (obj w) = [].
Proof.
  intros w. subst w. change (armed (snd (run ops c (fresh options)))).
  assert (H0 : armed (fresh options)) by (split; reflexivity).
  revert H0. generalize (fresh options).
  induction ops as [|o ops IH]; intros w H; [exact H|].
  rewrite run_cons. apply IH, step_armed, H.
Qed.

Lemma tryAcquire_ignores_timer (c : Clock) (w : W) (t : option Num) :
  let w0 := mkWorld (reads w) (promises w) (trace w) (set_drainTimer t (obj w)) in
  fst (tryAcquire c w0) = fst (tryAcquire c w).
Proof.
  cbv zeta. rewrite !tryAcquire_eq. cbv zeta. unfold live. cbn.
  destruct (_ <? _); reflexivity.
Qed.

(** When the drain timer fires and no slot is free, nobody is granted, the
    queue stays as it is and a new timer is set. *)
Theorem drain_without_slot (c : Clock) (w : W) (d : Num) :
  drainTimer (obj w) = Some d ->
  queue (obj w) <> [] ->
  fst (tryAcquire c w) = false ->
  let w' := snd (step OpTimer c w) in
  trace w' = trace w /\ queue (obj w') = queue (obj w) /\
  drainTimer (obj w') <> None.
Proof.
  intros Hd Hq Hno w'. subst w'. rewrite step_timer_eq, Hd, drainTimer_fire_eq.
  match goal with |- context [drainQueue c ?w0] => set (w0' := w0) end.
  assert (Hno0 : fst (tryAcquire c w0') = false)
    by (subst w0'; rewrite (tryAcquire_ignores_timer c w None); exact Hno).
  assert (Hq0 : queue (obj w0') = queue (obj w)) by reflexivity.
  assert (Ht0 : trace w0' = trace w) by reflexivity.
  rewrite drainQueue_eq. cbv zeta.
  destruct (queue (obj w)) as [|i rest] eqn:E; [congruence|].
  rewrite Hq0. cbn [length]. rewrite drainLoop_eq, Hq0. cbv zeta. rewrite Hno0.
  cbn [snd].
  destruct (tryAcquire_same c w0') as [(_ & Ht & Hqq & _) _].
  rewrite Hqq, Hq0.
  destruct (scheduleDrain_same c (snd (tryAcquire c w0'))) as (_ & Ht2 & Hq2 & _).
  rewrite Ht2, Hq2, Ht, Hqq, Hq0, Ht0.
  repeat split. apply scheduleDrain_arms.
Qed.

Lemma drain_without_slot_witness :
  let options :=
    {| opt_limit := 1; opt_window := 100; opt_strategy := Some SQueue |} in
  let c : Clock := fun n => Z.of_nat n in
  let w := snd (run [OpAcquire; OpAcquire] c (fresh options)) in
  (drainTimer (obj w) = Some (Ms 97) /\ queue (obj w) <> [] /\
   fst (tryAcquire c w) = false) /\
  trace (snd (step OpTimer c w)) = [] /\
  queue (obj (snd (step OpTimer c w))) = [0%nat].
Proof.
  intros options c w.
  assert (H1 : drainTimer (obj w) = Some (Ms 97)) by reflexivity.
  assert (H2 : queue (obj w) <> []) by discriminate.
  assert (H3 : fst (tryAcquire c w) = false) by reflexivity.
  split; [repeat split; assumption|].
  destruct (drain_without_slot c w (Ms 97) H1 H2 H3) as (Ha & Hb & _).
  split; assumption.
Defined.

(** When the drain timer fires and a slot is free, the waiter at the head of
    the queue is granted first; whoever else is granted follows in queue
    order, and the rest of the queue keeps waiting. *)
Theorem drain_grants_head (c : Clock) (w : W) (d : Num)
    (i : Waiter) (rest : list Waiter) :
  drainTimer (obj w) = Some d ->
  queue (obj w) = i :: rest ->
  fst (tryAcquire c w) = true ->
  let w' := snd (step OpTimer c w) in
  exists more : list Waiter,
    trace w' = trace w ++ Resolve i :: map Resolve more /\
    rest = more ++ queue (obj w').
Proof.
  intros Hd Hq Hyes w'. subst w'. rewrite step_timer_eq, Hd, drainTimer_fire_eq.
  match goal with |- context [drainQueue c ?w0] => set (w0' := w0) end.
  assert (Hyes0 : fst (tryAcquire c w0') = true)
    by (subst w0'; rewrite (tryAcquire_ignores_timer c w None); exact Hyes).
  assert (Hq0 : queue (obj w0') = i :: rest) by exact Hq.
  assert (Ht0 : trace w0' = trace w) by reflexivity.
  rewrite drainQueue_eq. cbv zeta.
  rewrite Hq0. cbn [length]. rewrite drainLoop_eq, Hq0. cbv zeta. rewrite Hyes0.
  destruct (tryAcquire_same c w0') as [(_ & Ht & Hqq & _) _].
  rewrite Hqq, Hq0.
  match goal with |- context [drainLoop (length rest) c ?w2] =>
    destruct (drainLoop_drained (length rest) c w2) as [k Hk];
    set (w3 := snd (drainLoop (length rest) c w2)) in * end.
  unfold drained in Hk. cbn [trace obj queue set_queue promises] in Hk.
  destruct Hk as (_ & Htr & Hqu & _).
  exists (firstn k rest).
  assert (Hfin : forall wf : W,
            trace wf = trace w3 -> queue (obj wf) = queue (obj w3) ->
            trace wf = trace w ++ Resolve i :: map Resolve (firstn k rest) /\
            rest = firstn k rest ++ queue (obj wf)).
  { intros wf H1 H2. rewrite H1, H2, Htr, Hqu, Ht, Ht0, <- app_assoc.
    split; [reflexivity|symmetry; apply firstn_skipn]. }
  destruct (queue (obj w3)) eqn:E.
  - apply Hfin; [reflexivity|exact E].
  - destruct (scheduleDrain_same c w3) as (_ & H1 & H2 & _).
    apply Hfin; [exact H1|rewrite H2; exact E].
Qed.

Lemma drain_grants_head_witness :
  let options :=
    {| opt_limit := 1; opt_window := 100; opt_strategy := Some SQueue |} in
  let c : Clock := fun n => nth n [0; 1; 2; 3; 4; 5; 200; 201; 202; 203] 300 in
  let w := snd (run [OpAcquire; OpAcquire; OpAcquire] c (fresh options)) in
  (drainTimer (obj w) = Some (Ms 97) /\ queue (obj w) = [0%nat; 1%nat] /\
   fst (tryAcquire c w) = true) /\
  exists more : list Waiter,
    trace (snd (step OpTimer c w)) = trace w ++ Resolve 0%nat :: map Resolve more /\
    [1%nat] = more ++ queue (obj (snd (step OpTimer c w))).
Proof.
  intros options c w.
  assert (H1 : drainTimer (obj w) = Some (Ms 97)) by reflexivity.
  assert (H2 : queue (obj w) = [0%nat; 1%nat]) by reflexivity.
  assert (H3 : fst (tryAcquire c w) = true) by reflexivity.
  split; [repeat split; assumption|].
  exact (drain_grants_head c w (Ms 97) 0%nat [1%nat] H1 H2 H3).
Defined.

(** *** [wrap] *)

Lemma wrap_eq {A R : Type} (fn : A -> R) (args : A) (c : Clock) (w : W) :
  wrap fn args c w =
  (match fst (acquire c w) with
   | Fulfilled acquired =>
       after_acquire fn args acquired (obj (snd (acquire c w)))
   | Rejected e => Throws e
   | Pending p => Awaits p
   end, snd (acquire c w)).
Proof.
  unfold wrap. unfold_host. destruct (fst (acquire c w)); reflexivity.
Qed.

(** A function made by [wrap] returns what [fn] returns when a slot is
    free; when none is free it throws the same [RateLimitError] under "drop"
    and under "error", and under "queue" it waits on a new waiter. *)
Theorem wrap_outcomes {A R : Type} (fn : A -> R) (args : A)
    (c : Clock) (w : W) :
  let r := wrap fn args c w in
  (fst (tryAcquire c w) = true -> fst r = Returns (fn args)) /\
  (fst (tryAcquire c w) = false -> strategy (obj w) <> SQueue ->
     fst r = Throws (new_RateLimitError (limit (obj w)) (window (obj w))) /\
     queue (obj (snd r)) = queue (obj w) /\ trace (snd r) = trace w) /\
  (fst (tryAcquire c w) = false -> strategy (obj w) = SQueue ->
     fst r = Awaits (promises w) /\
     queue (obj (snd r)) = queue (obj w) ++ [promises w]) /\
  (forall x : R, fst r = Returns x ->
     x = fn args /\ fst (tryAcquire c w) = true).
Proof.
  intros r. subst r. rewrite wrap_eq, acquire_eq. cbv zeta.
  destruct (tryAcquire_same c w) as [(Hp & Ht & Hq & Hl & Hw & Hs) _].
  destruct (fst (tryAcquire c w)) eqn:E; cbn [fst snd].
  - unfold after_acquire. cbn [negb].
    split; [reflexivity|]. split; [discriminate|]. split; [discriminate|].
    intros x Hx. injection Hx as <-. split; reflexivity.
  - rewrite Hs. destruct (strategy (obj w)) eqn:Es; cbn [fst snd];
      unfold after_acquire; cbn [negb];
      (split; [discriminate|]); (split; [|split]);
      try (intros; congruence); try (intros x Hx; discriminate).
    + intros _ _. rewrite Hl, Hw. repeat split; assumption.
    + intros _ _. split; [congruence|].
      match goal with |- context [scheduleDrain c ?w2] =>
        destruct (scheduleDrain_same c w2) as (_ & _ & Hq2 & _) end.
      rewrite Hq2. cbn. congruence.
    + intros _ _. rewrite Hl, Hw. repeat split; assumption.
Qed.
End RateLimiterExtra.

(** * The wait queue: who is granted, when, and in which order *)

Module RateLimiterQueue.
Import RateLimiter RateLimiterFacts RateLimiterExtra.






End RateLimiterQueue.

(** * More about throttle *)

Module ThrottleExtra.
Import Throttle.

Section WithFn.
Context {A R : Type}.
Variable fn : A -> R.
Variable wait : Z.
Variable options : ThrottleOptions.

Lemma throttle_run_cons (o : Op A) (ops : list (Op A)) (c : Clock) (w : W A) :
  run fn wait options (o :: ops) c w =
  run fn wait options ops c (snd (step fn wait options o c w)).
Proof. reflexivity. Qed.

Lemma throttle_step_inv (o : Op A) (c : Clock) (w : W A) :
  inv options (obj w) = true ->
  inv options (obj (snd (step fn wait options o c w))) = true.
Proof.
  destruct w as [rd pr tr [lct lex tm la ip]].
  unfold inv, step, throttled, cancel, flush, timer_fire, clear_timer, execute,
    leading, trailing.
  unfold_host.
  destruct o as [args| | |];
    destruct options as [[[|]|] [[|]|]]; cbn;
    try destruct (wait <=? c rd - lex); cbn;
    destruct tm, la, ip; cbn; intros H; try reflexivity; try discriminate.
Qed.

Lemma throttle_run_inv (ops : list (Op A)) (c : Clock) (w : W A) :
  inv options (obj w) = true ->
  inv options (obj (snd (run fn wait options ops c w))) = true.
Proof.
  revert w. induction ops as [|o ops IH]; intros w H; [exact H|].
  rewrite throttle_run_cons. apply IH, throttle_step_inv, H.
Qed.

(** After any history, [pending] is true exactly while the trailing timer is
    set, and a set timer always has arguments to execute and [trailing]
    on. *)
Theorem throttle_pending_iff_timer (ops : list (Op A)) (c : Clock) :
  let w := snd (run fn wait options ops c fresh) in
  (fst (pending c w) = true <-> timer (obj w) <> None) /\
  (timer (obj w) <> None ->
   lastArgs (obj w) <> None /\ trailing options = true).
Proof.
  intros w.
  pose proof (throttle_run_inv ops c fresh eq_refl) as H. fold w in H.
  revert H. generalize w. clear w. intros [rd pr tr [lct lex tm la ip]].
  unfold inv, pending. unfold_host.
  destruct tm, la, ip, (trailing options); cbn; intros H;
    try discriminate; repeat split; intros; congruence.
Qed.

(** With [trailing] off (as in [throttleLeading]) no timer is ever set and
    nothing is ever pending. *)
Theorem trailing_off_never_pending (ops : list (Op A)) (c : Clock) :
  trailing options = false ->
  let w := snd (run fn wait options ops c fresh) in
  timer (obj w) = None /\ fst (pending c w) = false.
Proof.
  intros Ht w.
  pose proof (throttle_run_inv ops c fresh eq_refl) as H. fold w in H.
  revert H. generalize w. clear w. intros [rd pr tr [lct lex tm la ip]].
  unfold inv, pending. unfold_host. rewrite Ht.
  destruct tm, la, ip; cbn; intros H; try discriminate; split; reflexivity.
Qed.

(** A call inside the window, or any call with [leading] off, does not call
    [fn]: it returns [undefined] and keeps its arguments for the trailing
    edge. *)
Theorem throttled_deferred (args : A) (c : Clock) (w : W A) :
  let elapsed := c (reads w) - lastExecTime (obj w) in
  let r := throttled fn wait options args c w in
  leading options = false \/ elapsed < wait ->
  fst r = None /\ trace (snd r) = trace w /\
  lastArgs (obj (snd r)) = Some args /\
  lastExecTime (obj (snd r)) = lastExecTime (obj w) /\
  (trailing options = true -> timer (obj (snd r)) <> None).
Proof.
  destruct w as [rd pr tr [lct lex tm la ip]].
  intros elapsed r H. subst r. cbn in elapsed.
  unfold throttled, clear_timer, trailing. unfold_host. fold elapsed.
  destruct (Z.leb_spec wait elapsed) as [Hge|Hlt].
  - destruct H as [H|H]; [|lia]. rewrite H.
    destruct tm, (opt_trailing options) as [[|]|]; cbn;
      repeat split; try discriminate; intros; discriminate.
  - destruct tm, (opt_trailing options) as [[|]|]; cbn;
      repeat split; try discriminate; intros; discriminate.
Qed.

(** Whatever came before, when the timer fires after a deferred call, [fn]
    is called once, with the arguments of that call, and nothing stays
    pending. *)
Theorem trailing_edge_uses_latest_args (args : A) (c : Clock) (w : W A) :
  let elapsed := c (reads w) - lastExecTime (obj w) in
  let w1 := snd (throttled fn wait options args c w) in
  let w2 := snd (step fn wait options OpTimer c w1) in
  trailing options = true ->
  leading options = false \/ elapsed < wait ->
  trace w2 = trace w ++ [args] /\
  timer (obj w2) = None /\ lastArgs (obj w2) = None /\
  fst (pending c w2) = false /\
  lastExecTime (obj w2) = c (reads w1).
Proof.
  destruct w as [rd pr tr [lct lex tm la ip]].
  intros elapsed w1 w2 Ht H. subst w2 w1. cbn in elapsed.
  unfold step, throttled, timer_fire, clear_timer, execute, pending.
  unfold_host. fold elapsed. rewrite Ht.
  destruct (Z.leb_spec wait elapsed) as [Hge|Hlt].
  - destruct H as [H|H]; [|lia]. rewrite H.
    destruct tm; cbn; repeat split.
  - destruct tm; cbn; repeat split.
Qed.

Lemma idle_step (o : Op A) (c : Clock) (w : W A) :
  timer (obj w) = None -> lastArgs (obj w) = None ->
  isPending (obj w) = false ->
  o = OpCancel \/ o = OpFlush \/ o = OpTimer ->
  step fn wait options o c w = (tt, w).
Proof.
  destruct w as [rd pr tr [lct lex tm la ip]]. cbn.
  intros Ht Ha Hp Ho. subst tm la ip.
  destruct Ho as [Ho|[Ho|Ho]]; subst o; reflexivity.
Qed.

(** After [cancel()] nothing is pending, and neither the timer nor [flush()]
    nor another [cancel()] calls [fn]. *)
Theorem cancel_prevents_execution (ops : list (Op A)) (c : Clock) (w : W A) :
  (forall o : Op A, In o ops -> o = OpCancel \/ o = OpFlush \/ o = OpTimer) ->
  let w1 := snd (cancel c w) in
  fst (pending c w1) = false /\ timer (obj w1) = None /\
  trace w1 = trace w /\
  run fn wait options ops c w1 = (tt, w1).
Proof.
  intros Hops w1.
  assert (H1 : timer (obj w1) = None /\ lastArgs (obj w1) = None /\
               isPending (obj w1) = false /\ trace w1 = trace w).
  { subst w1. destruct w as [rd pr tr [lct lex [tm|] la ip]];
      repeat split. }
  destruct H1 as (Ht & Ha & Hp & Htr).
  split; [exact Hp|]. split; [exact Ht|]. split; [exact Htr|].
  induction ops as [|o ops IH]; [reflexivity|].
  rewrite throttle_run_cons, idle_step; try assumption.
  - apply IH. intros o' Ho'. apply Hops. right. exact Ho'.
  - apply Hops. left. reflexivity.
Qed.

(** With both edges off the wrapper only records: no history makes it call
    [fn]. *)
Theorem both_edges_off_never_executes (ops : list (Op A)) (c : Clock) :
  leading options = false -> trailing options = false ->
  trace (snd (run fn wait options ops c fresh)) = [].
Proof.
  intros Hl Ht.
  assert (H : forall w : W A,
             trace w = [] /\ timer (obj w) = None ->
             trace (snd (run fn wait options ops c w)) = []).
  { induction ops as [|o ops IH]; intros w [H1 H2]; [exact H1|].
    rewrite throttle_run_cons. apply IH.
    destruct w as [rd pr tr [lct lex tm la ip]]. cbn in H1, H2. subst tr tm.
    unfold step, throttled, cancel, flush, timer_fire, clear_timer, execute.
    unfold_host. rewrite Hl, Ht.
    destruct o as [args| | |]; cbn;
      try destruct (wait <=? c rd - lex); try destruct la; cbn;
      split; reflexivity. }
  apply H. split; reflexivity.
Qed.
End WithFn.

Lemma trailing_off_never_pending_witness :
  let c : Clock := fun n => 1000 + Z.of_nat n in
  let w := snd (run Z.succ 50 throttleLeading_options
                  [OpCall 1; OpCall 2; OpCall 3] c fresh) in
  trailing throttleLeading_options = false /\
  timer (obj w) = None /\ fst (pending c w) = false /\ trace w = [1].
Proof.
  intros c w.
  assert (H : trailing throttleLeading_options = false) by reflexivity.
  split; [exact H|].
  destruct (trailing_off_never_pending Z.succ 50 throttleLeading_options
              [OpCall 1; OpCall 2; OpCall 3] c H) as [Ha Hb].
  repeat split; assumption.
Defined.

Lemma throttled_deferred_witness :
  let c : Clock := fun n => 1000 + Z.of_nat n in
  let options := {| opt_leading := None; opt_trailing := None |} in
  let w := snd (throttled Z.succ 50 options 1 c fresh) in
  (leading options = false \/ c (reads w) - lastExecTime (obj w) < 50) /\
  fst (throttled Z.succ 50 options 2 c w) = None /\
  trace (snd (throttled Z.succ 50 options 2 c w)) = [1].
Proof.
  intros c options w.
  assert (H : leading options = false \/
              c (reads w) - lastExecTime (obj w) < 50) by (right; cbn; lia).
  split; [exact H|].
  destruct (throttled_deferred Z.succ 50 options 2 c w H) as (Ha & Hb & _).
  split; assumption.
Defined.

Lemma trailing_edge_uses_latest_args_witness :
  let c : Clock := fun n => 1000 + Z.of_nat n in
  let options := {| opt_leading := None; opt_trailing := None |} in
  let w := snd (run Z.succ 50 options [OpCall 1; OpCall 2] c fresh) in
  (trailing options = true /\
   (leading options = false \/ c (reads w) - lastExecTime (obj w) < 50)) /\
  trace (snd (step Z.succ 50 options OpTimer c
                (snd (throttled Z.succ 50 options 3 c w)))) = [1; 3].
Proof.
  intros c options w.
  assert (H1 : trailing options = true) by reflexivity.
  assert (H2 : leading options = false \/
               c (reads w) - lastExecTime (obj w) < 50) by (right; cbn; lia).
  split; [split; assumption|].
  exact (proj1 (trailing_edge_uses_latest_args Z.succ 50 options 3 c w H1 H2)).
Defined.

Lemma cancel_prevents_execution_witness :
  let c : Clock := fun n => 1000 + Z.of_nat n in
  let options := {| opt_leading := None; opt_trailing := None |} in
  let w := snd (run Z.succ 50 options [OpCall 1; OpCall 2] c fresh) in
  (forall o : Op Z, In o [OpTimer; OpFlush] ->
     o = OpCancel \/ o = OpFlush \/ o = OpTimer) /\
  timer (obj w) <> None /\
  trace (snd (run Z.succ 50 options [OpTimer; OpFlush] c (snd (cancel c w)))) = [1].
Proof.
  intros c options w.
  assert (H : forall o : Op Z, In o [OpTimer; OpFlush] ->
                o = OpCancel \/ o = OpFlush \/ o = OpTimer).
  { intros o [<-|[<-|[]]]; [right; right|right; left]; reflexivity. }
  split; [exact H|]. split; [discriminate|].
  destruct (cancel_prevents_execution Z.succ 50 options [OpTimer; OpFlush] c w H)
    as (_ & _ & Ht & Hr).
  rewrite Hr. exact Ht.
Defined.

Lemma both_edges_off_never_executes_witness :
  let c : Clock := fun n => 1000 + Z.of_nat (100 * n) in
  let options := {| opt_leading := Some false; opt_trailing := Some false |} in
  (leading options = false /\ trailing options = false) /\
  trace (snd (run Z.succ 50 options
                [OpCall 1; OpTimer; OpCall 2; OpFlush; OpCall 3] c fresh)) = [].
Proof.
  intros c options.
  assert (H1 : leading options = false) by reflexivity.
  assert (H2 : trailing options = false) by reflexivity.
  split; [split; assumption|].
  exact (both_edges_off_never_executes Z.succ 50 options
           [OpCall 1; OpTimer; OpCall 2; OpFlush; OpCall 3] c H1 H2).
Defined.
End ThrottleExtra.

(** * More about debounce *)

Module DebounceExtra.
Import Debounce DebounceFacts.

Section WithOptions.
Context {A : Type}.
Variable wait : Z.
Variable options : DebounceOptions.

Lemma step_ceiling_inv (o : Op A) (c : Clock) (w : W A) :
  inv options (obj w) = true ->
  ceiling_inv options (obj w) = true ->
  ceiling_inv options (obj (snd (step wait options o c w))) = true.
Proof.
  unfold inv, ceiling_inv, leading, step, debounced, cancel, flush,
    timer_fire, maxTimer_fire, execute, maxWait.
  unfold_host.
  destruct w as [rd pr tr [[tm|] [mt|] [la|] [|] [|]]];
    destruct options as [[[|]|] [mw|]];
    destruct o; cbn; intros H1 H2; try reflexivity; try discriminate.
Qed.

Lemma run_ceiling_inv (ops : list (Op A)) (c : Clock) (w : W A) :
  inv options (obj w) = true ->
  ceiling_inv options (obj w) = true ->
  ceiling_inv options (obj (snd (run wait options ops c w))) = true.
Proof.
  revert w. induction ops as [|o ops IH]; intros w H1 H2; [exact H2|].
  rewrite debounced_run_cons.
  apply IH; [apply step_inv, H1|apply step_ceiling_inv; assumption].
Qed.

(** After any history and for any options, [pending] is true exactly while
    the quiet-period timer is set, a set timer has arguments stored, and the
    [maxWait] timer is only set during a burst and when [maxWait] is
    configured. *)
Theorem debounce_pending_iff_timer (ops : list (Op A)) (c : Clock) :
  let w := snd (run wait options ops c fresh) in
  (fst (pending c w) = true <-> timer (obj w) <> None) /\
  (timer (obj w) <> None -> lastArgs (obj w) <> None) /\
  (maxTimer (obj w) <> None ->
   timer (obj w) <> None /\ maxWait options <> None).
Proof.
  intros w.
  pose proof (run_inv wait options ops c fresh (fresh_inv options)) as H1.
  pose proof (run_ceiling_inv ops c fresh (fresh_inv options) eq_refl) as H2.
  fold w in H1, H2. revert H1 H2. generalize w. clear w.
  intros [rd pr tr [tm mt la ip lc]].
  unfold inv, ceiling_inv, pending. unfold_host.
  destruct tm, mt, la, ip, lc, (leading options), (maxWait options);
    cbn; intros H1 H2; try discriminate;
    repeat split; intros; congruence.
Qed.

(** The calls of a burst, one after the other. *)
Lemma calls_snoc (more : list A) (a : A) (c : Clock) (w : W A) :
  run wait options (map OpCall (more ++ [a])) c w =
  debounced wait options a c (snd (run wait options (map OpCall more) c w)).
Proof.
  revert w. induction more as [|b more IH]; intros w.
  - cbn [app map]. unfold run. cbn [forEach step]. unfold bind, ret.
    cbn [fst snd].
    destruct (debounced wait options a c w) as [[] w']. reflexivity.
  - cbn [app map]. rewrite !debounced_run_cons. apply IH.
Qed.

Lemma calls_trace_trailing (more : list A) (c : Clock) (w : W A) :
  leading options = false ->
  trace (snd (run wait options (map OpCall more) c w)) = trace w.
Proof.
  intros Hl. revert w. induction more as [|b more IH]; intros w; [reflexivity|].
  cbn [map]. rewrite debounced_run_cons, IH. cbn [step].
  unfold debounced, maxWait. unfold_host. rewrite Hl. cbn.
  destruct (opt_maxWait options), (maxTimer (obj w)); reflexivity.
Qed.

Lemma calls_trace_leading (more : list A) (c : Clock) (w : W A) :
  leadingCalled (obj w) = true ->
  trace (snd (run wait options (map OpCall more) c w)) = trace w.
Proof.
  revert w. induction more as [|b more IH]; intros w Hc; [reflexivity|].
  cbn [map]. rewrite debounced_run_cons.
  destruct w as [rd pr tr [tm mt la ip lc]]. cbn in Hc. subst lc.
  rewrite IH; cbn [step]; unfold debounced, maxWait; unfold_host;
    rewrite andb_false_r; cbn;
    destruct (opt_maxWait options), mt; reflexivity.
Qed.

(** With [leading] off, a burst of calls followed by the quiet-period timer
    calls [fn] exactly once, with the arguments of the last call, and leaves
    the wrapper idle. *)
Theorem trailing_burst_executes_last
    (more : list A) (a : A) (c : Clock) (w : W A) :
  leading options = false ->
  let w1 := snd (run wait options (map OpCall (more ++ [a])) c w) in
  let w2 := snd (step wait options OpTimer c w1) in
  trace w1 = trace w /\ timer (obj w1) = Some wait /\
  trace w2 = trace w ++ [a] /\ obj w2 = init.
Proof.
  intros Hl w1 w2. subst w2 w1. rewrite calls_snoc.
  pose proof (calls_trace_trailing more c w Hl) as Ht.
  revert Ht. generalize (snd (run wait options (map OpCall more) c w)).
  intros [rd pr tr [tm mt la ip lc]] Ht. cbn in Ht. subst tr.
  unfold step, debounced, timer_fire, execute, maxWait. unfold_host.
  rewrite Hl. cbn.
  destruct (opt_maxWait options), mt; cbn; repeat split.
Qed.

(** With [leading] on, a burst of at least two calls that starts when no
    leading call is outstanding calls [fn] twice: at once with the first
    arguments and, when the quiet-period timer fires, with the last ones. *)
Theorem leading_burst_executes_first_and_last
    (a : A) (more : list A) (z : A) (c : Clock) (w : W A) :
  leading options = true ->
  leadingCalled (obj w) = false ->
  let w1 := snd (debounced wait options a c w) in
  let w2 := snd (run wait options (map OpCall (more ++ [z])) c w1) in
  let w3 := snd (step wait options OpTimer c w2) in
  trace w1 = trace w ++ [a] /\ trace w2 = trace w ++ [a] /\
  trace w3 = trace w ++ [a; z] /\ obj w3 = init.
Proof.
  intros Hl Hc w1 w2 w3.
  assert (H1 : trace w1 = trace w ++ [a] /\ leadingCalled (obj w1) = true).
  { subst w1. destruct w as [rd pr tr [tm mt la ip lc]]. cbn in Hc. subst lc.
    unfold debounced, maxWait. unfold_host. rewrite Hl. cbn.
    destruct (opt_maxWait options), mt; split; reflexivity. }
  destruct H1 as [Ht1 Hc1].
  subst w3 w2. rewrite calls_snoc.
  pose proof (calls_trace_leading more c w1 Hc1) as Ht.
  assert (Hc2 : leadingCalled (obj (snd (run wait options (map OpCall more) c w1))) = true)
    by (apply (calls_in_burst wait options more c w1 Hl);
        apply (debounced_in_burst wait options a c w Hl)).
  rewrite Ht1 in Ht. revert Ht Hc2.
  generalize (snd (run wait options (map OpCall more) c w1)).
  intros [rd pr tr [tm mt la ip lc]] Ht Hc2. cbn in Ht, Hc2. subst tr lc.
  split; [exact Ht1|].
  unfold step, debounced, timer_fire, execute, maxWait. unfold_host.
  rewrite Hl. cbn.
  destruct (opt_maxWait options), mt; cbn; rewrite <- ?app_assoc;
    repeat split.
Qed.

(** With [maxWait] configured and [leading] off, calls never move a
    [maxWait] timer that is already set; when it fires, [fn] is called once
    with the arguments of the last call and the wrapper is idle, however
    often the quiet-period timer was restarted. *)
Theorem maxWait_forces_execution
    (m : Z) (more : list A) (a : A) (c : Clock) (w : W A) :
  maxWait options = Some m ->
  leading options = false ->
  let w1 := snd (run wait options (map OpCall (more ++ [a])) c w) in
  let w2 := snd (step wait options OpMaxTimer c w1) in
  maxTimer (obj w1) =
    Some (match maxTimer (obj w) with Some t => t | None => m end) /\
  trace w1 = trace w /\
  trace w2 = trace w ++ [a] /\ obj w2 = init.
Proof.
  intros Hm Hl w1 w2.
  assert (Hkeep : forall (l : list A) (w0 : W A),
            maxTimer (obj w0) <> None ->
            maxTimer (obj (snd (run wait options (map OpCall l) c w0)))
            = maxTimer (obj w0)).
  { induction l as [|b l IH]; intros w0 H0; [reflexivity|].
    cbn [map]. rewrite debounced_run_cons.
    assert (E : maxTimer (obj (snd (step wait options (OpCall b) c w0)))
                = maxTimer (obj w0)).
    { destruct w0 as [rd pr tr [tm [mt|] la ip lc]];
        [|cbn in H0; congruence].
      cbn [step]. unfold debounced. rewrite Hm, Hl. reflexivity. }
    rewrite IH; [exact E|rewrite E; exact H0]. }
  assert (Hfirst : forall (b : A) (w0 : W A),
            maxTimer (obj (snd (debounced wait options b c w0)))
            = Some (match maxTimer (obj w0) with Some t => t | None => m end)).
  { intros b [rd pr tr [tm [mt|] la ip lc]];
      unfold debounced; rewrite Hm, Hl; reflexivity. }
  assert (H1 : maxTimer (obj w1) =
               Some (match maxTimer (obj w) with Some t => t | None => m end)).
  { subst w1. destruct more as [|b more].
    - cbn [app]. rewrite (calls_snoc [] a). apply Hfirst.
    - cbn [app map]. rewrite debounced_run_cons. cbn [step].
      rewrite Hkeep; [apply Hfirst|rewrite Hfirst; discriminate]. }
  split; [exact H1|]. clear H1 Hkeep Hfirst. subst w2 w1. rewrite calls_snoc.
  pose proof (calls_trace_trailing more c w Hl) as Ht.
  revert Ht. generalize (snd (run wait options (map OpCall more) c w)).
  intros [rd pr tr [tm [mt|] la ip lc]] Ht; cbn in Ht; subst tr;
    unfold step, debounced, maxTimer_fire, execute; rewrite Hm, Hl;
    unfold_host; repeat split.
Qed.

(** [flush()] calls [fn] once with the stored arguments, if there are any,
    and ends the burst; a second [flush()] right after does nothing. *)
Theorem debounce_flush_once (c : Clock) (w : W A) :
  let w1 := snd (flush c w) in
  trace w1 =
    trace w ++ match lastArgs (obj w) with Some a => [a] | None => [] end /\
  obj w1 = init /\
  flush c w1 = (tt, w1).
Proof.
  destruct w as [rd pr tr [tm [mt|] [la|] ip lc]]; cbn;
    rewrite ?app_nil_r; repeat split.
Qed.

Lemma debounce_idle_step (o : Op A) (c : Clock) (w : W A) :
  obj w = init ->
  (forall args : A, o <> OpCall args) ->
  step wait options o c w = (tt, w).
Proof.
  destruct w as [rd pr tr s]. cbn. intros -> Ho.
  destruct o as [args| | | |]; try reflexivity.
  exfalso. apply (Ho args). reflexivity.
Qed.

(** [cancel()] discards the burst: the wrapper is idle again, and until the
    next call neither timer nor [flush()] calls [fn]. *)
Theorem debounce_cancel_discards (ops : list (Op A)) (c : Clock) (w : W A) :
  (forall (o : Op A) (args : A), In o ops -> o <> OpCall args) ->
  let w1 := snd (cancel c w) in
  obj w1 = init /\ trace w1 = trace w /\
  run wait options ops c w1 = (tt, w1).
Proof.
  intros Hops w1.
  assert (H1 : obj w1 = init) by reflexivity.
  split; [exact H1|]. split; [reflexivity|].
  induction ops as [|o ops IH]; [reflexivity|].
  rewrite debounced_run_cons, debounce_idle_step; [|exact H1|].
  - apply IH. intros o' args Ho'. apply Hops. right. exact Ho'.
  - intros args. apply Hops. left. reflexivity.
Qed.
End WithOptions.

Lemma trailing_burst_executes_last_witness :
  let options := {| opt_leading := None; opt_maxWait := None |} in
  let c : Clock := fun _ => 0 in
  let w1 := snd (run 50 options (map OpCall ([1; 2] ++ [3])) c fresh) in
  leading options = false /\
  trace (snd (step 50 options OpTimer c w1)) = trace (@fresh Z) ++ [3] /\
  obj (snd (step 50 options OpTimer c w1)) = init.
Proof.
  intros options c w1.
  assert (H : leading options = false) by reflexivity.
  split; [exact H|].
  exact (proj2 (proj2 (trailing_burst_executes_last 50 options [1; 2] 3 c fresh H))).
Defined.

Lemma leading_burst_executes_first_and_last_witness :
  let options := {| opt_leading := Some true; opt_maxWait := None |} in
  let c : Clock := fun _ => 0 in
  let w1 := snd (debounced 50 options 1 c fresh) in
  let w2 := snd (run 50 options (map OpCall ([2] ++ [3])) c w1) in
  (leading options = true /\ leadingCalled (obj (@fresh Z)) = false) /\
  trace (snd (step 50 options OpTimer c w2)) = trace (@fresh Z) ++ [1; 3] /\
  obj (snd (step 50 options OpTimer c w2)) = init.
Proof.
  intros options c w1 w2.
  assert (H1 : leading options = true) by reflexivity.
  assert (H2 : leadingCalled (obj (@fresh Z)) = false) by reflexivity.
  split; [split; assumption|].
  exact (proj2 (proj2 (leading_burst_executes_first_and_last
                         50 options 1 [2] 3 c fresh H1 H2))).
Defined.

Lemma maxWait_forces_execution_witness :
  let options := {| opt_leading := None; opt_maxWait := Some 80 |} in
  let c : Clock := fun _ => 0 in
  let w1 := snd (run 50 options (map OpCall ([1; 2] ++ [3])) c fresh) in
  (maxWait options = Some 80 /\ leading options = false) /\
  trace w1 = trace (@fresh Z) /\
  trace (snd (step 50 options OpMaxTimer c w1)) = trace (@fresh Z) ++ [3] /\
  obj (snd (step 50 options OpMaxTimer c w1)) = init.
Proof.
  intros options c w1.
  assert (H1 : maxWait options = Some 80) by reflexivity.
  assert (H2 : leading options = false) by reflexivity.
  split; [split; assumption|].
  exact (proj2 (maxWait_forces_execution 50 options 80 [1; 2] 3 c fresh H1 H2)).
Defined.

Lemma debounce_cancel_discards_witness :
  let options := {| opt_leading := None; opt_maxWait := Some 80 |} in
  let c : Clock := fun _ => 0 in
  let w := snd (debounced 50 options 1 c fresh) in
  let w1 := snd (cancel c w) in
  (forall (o : Op Z) (args : Z),
      In o [OpTimer; OpMaxTimer; OpFlush] -> o <> OpCall args) /\
  obj w1 = init /\ trace w1 = trace w /\
  run 50 options [OpTimer; OpMaxTimer; OpFlush] c w1 = (tt, w1).
Proof.
  intros options c w w1.
  assert (H : forall (o : Op Z) (args : Z),
                In o [OpTimer; OpMaxTimer; OpFlush] -> o <> OpCall args).
  { intros o args [<-|[<-|[<-|[]]]]; discriminate. }
  split; [exact H|].
  exact (debounce_cancel_discards 50 options
           [OpTimer; OpMaxTimer; OpFlush] c w H).
Defined.

End DebounceExtra.
